(** * The trust-region framework of COBYQA ([cobyqa/framework.py])

    A shallow embedding of the class [TrustRegion] and of the properties its
    specification states about it.

    Conventions of the embedding.
    - A Python [float] is a real number: rounding, overflow, infinities and
      NaN are outside the model.  The two machine constants the code reads
      from [np.finfo(float)] keep their values ([tiny] is 2^-1022 and [eps]
      is 2^-52).
    - A one-dimensional array is a list of reals, a two-dimensional array the
      list of its rows.  Arrays are combined position by position; the shapes
      are those the problem fixes.
    - The mutable object [self] is a record, and a method that mutates it is
      a function to the new record.
    - What lives in modules that are not part of this development
      ([models.py], [problem.py], [utils.py], the subproblem solvers and
      [scipy.optimize.lsq_linear]) enters as a field of [Problem] or
      [Models], or as a member of the class [Subsolvers].
    - An index into the interpolation set is a natural number; the arrays of
      the models are read with [nth], which differs from Python (an
      [IndexError]) only at indices that are not below [npt]. *)

From Stdlib Require Import String Reals Lra List Bool Arith Lia.
Import ListNotations.
Local Open Scope R_scope.

(** ** Numbers *)

(** [np.finfo(float).tiny] and [np.finfo(float).eps]. *)
Definition tiny : R := / 2 ^ 1022.
Definition eps : R := / 2 ^ 52.

(** Python's builtin [max(a, b)] and [min(a, b)]: the first argument is kept
    unless the second is strictly better. *)
Definition py_max (a b : R) : R := if Rlt_dec a b then b else a.
Definition py_min (a b : R) : R := if Rlt_dec b a then b else a.

(** The comparisons of the code, as booleans. *)
Definition Rleb (a b : R) : bool := if Rle_dec a b then true else false.
Definition Rltb (a b : R) : bool := if Rlt_dec a b then true else false.

(** ** Arrays *)

Definition vec := list R.
Definition mat := list vec.

Fixpoint map2 {A B C : Type} (f : A -> B -> C) (u : list A) (v : list B) : list C :=
  match u, v with
  | a :: u', b :: v' => f a b :: map2 f u' v'
  | _, _ => []
  end.

Definition vadd (u v : vec) : vec := map2 Rplus u v.
Definition vsub (u v : vec) : vec := map2 Rminus u v.
Definition vscale (c : R) (v : vec) : vec := map (Rmult c) v.
Definition vneg (v : vec) : vec := map Ropp v.
Definition vsum (v : vec) : R := fold_right Rplus 0 v.

(** [u @ v] for two vectors. *)
Definition dot (u v : vec) : R := vsum (map2 Rmult u v).

(** [np.linalg.norm]. *)
Definition norm (v : vec) : R := sqrt (dot v v).

(** [a @ x] for a matrix and a vector. *)
Definition mat_vec (a : mat) (x : vec) : vec := map (fun row => dot row x) a.

(** [l @ a] for a vector and a matrix with [n] columns: the combination of
    the rows of [a] with the coefficients [l] (the zero vector when [a] has
    no row). *)
Definition vec_mat (n : nat) (l : vec) (a : mat) : vec :=
  fold_right vadd (repeat 0 n) (map2 vscale l a).

(** [np.maximum(v, 0.0)] (and [np.maximum(0.0, v)], which is the same number)
    and [np.abs(v)]. *)
Definition vpos (v : vec) : vec := map (fun c => Rmax c 0) v.
Definition vabs (v : vec) : vec := map Rabs v.

(** Boolean masks: [np.count_nonzero(mask)] and [array[mask]]. *)
Definition count_nonzero (mask : list bool) : nat :=
  length (filter (fun b => b) mask).

Fixpoint select {A : Type} (mask : list bool) (l : list A) : list A :=
  match mask, l with
  | b :: mask', a :: l' => if b then a :: select mask' l' else select mask' l'
  | _, _ => []
  end.

(** ** The problem, the models and the options *)

(** The handle [self._pb].  [pb_fun], [pb_cub], [pb_ceq] are the black boxes,
    [resid] is [Problem.resid] and [pb_type] the string [Problem.type]. *)
Record Problem := {
  pb_n : nat;
  bounds_xl : vec;
  bounds_xu : vec;
  linear_ub_a : mat;
  linear_ub_b : vec;
  linear_eq_a : mat;
  linear_eq_b : vec;
  m_nonlinear_ub : nat;
  m_nonlinear_eq : nat;
  pb_fun : vec -> R;
  pb_cub : vec -> vec;
  pb_ceq : vec -> vec;
  resid : vec -> vec -> vec -> R;
  pb_type : string
}.

Definition m_linear_ub (p : Problem) : nat := length (linear_ub_b p).
Definition m_linear_eq (p : Problem) : nat := length (linear_eq_b p).

(** The bundle [self._models]: the interpolation set ([x_base], and the
    columns of [xpt]), the values stored at the interpolation points and the
    evaluation of the quadratic models. *)
Record Models := {
  x_base : vec;
  xpt : list vec;
  fun_val : list R;
  cub_val : list vec;
  ceq_val : list vec;
  fun_grad : vec -> vec;
  cub : vec -> vec;
  cub_grad : vec -> mat;
  cub_grad_mask : vec -> list bool -> mat;
  ceq : vec -> vec;
  ceq_grad : vec -> mat;
  fun_hess_prod : vec -> vec;
  cub_hess_prod : vec -> mat;
  ceq_hess_prod : vec -> mat
}.

(** [models.npt]: the number of interpolation points. *)
Definition npt (m : Models) : nat := length (xpt m).

(** Modelled from the spec: [Interpolation.point] of [models.py], the
    [k]-th interpolation point relative to the origin, [x_base + xpt[:, k]]. *)
Definition point (m : Models) (k : nat) : vec := vadd (x_base m) (nth k (xpt m) []).

Record Options := {
  radius_init : R;
  radius_final : R;
  debug : bool
}.

(** ** The state of the framework *)

Record TrustRegion := {
  pb : Problem;
  models : Models;
  penalty : R;
  best_index : nat;
  lm_linear_ub : vec;
  lm_linear_eq : vec;
  lm_nonlinear_ub : vec;
  lm_nonlinear_eq : vec;
  resolution : R;
  radius : R
}.

Definition with_penalty (tr : TrustRegion) (p : R) : TrustRegion :=
  {| pb := pb tr; models := models tr; penalty := p; best_index := best_index tr;
     lm_linear_ub := lm_linear_ub tr; lm_linear_eq := lm_linear_eq tr;
     lm_nonlinear_ub := lm_nonlinear_ub tr; lm_nonlinear_eq := lm_nonlinear_eq tr;
     resolution := resolution tr; radius := radius tr |}.

Definition with_best_index (tr : TrustRegion) (k : nat) : TrustRegion :=
  {| pb := pb tr; models := models tr; penalty := penalty tr; best_index := k;
     lm_linear_ub := lm_linear_ub tr; lm_linear_eq := lm_linear_eq tr;
     lm_nonlinear_ub := lm_nonlinear_ub tr; lm_nonlinear_eq := lm_nonlinear_eq tr;
     resolution := resolution tr; radius := radius tr |}.

Definition with_multipliers (tr : TrustRegion) (lub leq nub neq : vec) : TrustRegion :=
  {| pb := pb tr; models := models tr; penalty := penalty tr; best_index := best_index tr;
     lm_linear_ub := lub; lm_linear_eq := leq;
     lm_nonlinear_ub := nub; lm_nonlinear_eq := neq;
     resolution := resolution tr; radius := radius tr |}.

(** The setter of the property [resolution], and the plain assignment to
    [self._radius]. *)
Definition set_resolution (tr : TrustRegion) (r : R) : TrustRegion :=
  {| pb := pb tr; models := models tr; penalty := penalty tr; best_index := best_index tr;
     lm_linear_ub := lm_linear_ub tr; lm_linear_eq := lm_linear_eq tr;
     lm_nonlinear_ub := lm_nonlinear_ub tr; lm_nonlinear_eq := lm_nonlinear_eq tr;
     resolution := r; radius := radius tr |}.

Definition assign_radius (tr : TrustRegion) (r : R) : TrustRegion :=
  {| pb := pb tr; models := models tr; penalty := penalty tr; best_index := best_index tr;
     lm_linear_ub := lm_linear_ub tr; lm_linear_eq := lm_linear_eq tr;
     lm_nonlinear_ub := lm_nonlinear_ub tr; lm_nonlinear_eq := lm_nonlinear_eq tr;
     resolution := resolution tr; radius := r |}.

(** The setter of the property [radius]: the new value is stored, and
    replaced by the resolution when it is at most 1.4 times the resolution. *)
Definition set_radius (tr : TrustRegion) (r : R) : TrustRegion :=
  let tr1 := assign_radius tr r in
  if Rle_dec (radius tr1) (1.4 * resolution tr1)
  then assign_radius tr1 (resolution tr1)
  else tr1.

(** ** Radius and resolution *)

Definition update_radius (tr : TrustRegion) (step : vec) (ratio : R) : TrustRegion :=
  let s_norm := norm step in
  if Rle_dec ratio 0.1 then
    set_radius tr (radius tr * 0.5)
  else if Rle_dec ratio 0.7 then
    set_radius tr (py_max (0.5 * radius tr) s_norm)
  else
    set_radius tr (py_min (sqrt 2 * radius tr) (py_max (0.5 * radius tr) (2 * s_norm))).

Definition reduce_resolution (tr : TrustRegion) (options : Options) : TrustRegion :=
  let tr1 :=
    if Rlt_dec (250 * radius_final options) (resolution tr) then
      set_resolution tr (resolution tr * 0.1)
    else if Rlt_dec (16 * radius_final options) (resolution tr) then
      set_resolution tr (sqrt (resolution tr * radius_final options))
    else
      set_resolution tr (radius_final options) in
  let tr2 := assign_radius tr1 (radius tr1 * 0.5) in
  assign_radius tr2 (py_max (radius tr2) (resolution tr2)).

(** ** The best point and the Lagrangian model *)

Definition x_best (tr : TrustRegion) : vec := point (models tr) (best_index tr).
Definition fun_best (tr : TrustRegion) : R := nth (best_index tr) (fun_val (models tr)) 0.
Definition cub_best (tr : TrustRegion) : vec := nth (best_index tr) (cub_val (models tr)) [].
Definition ceq_best (tr : TrustRegion) : vec := nth (best_index tr) (ceq_val (models tr)) [].

Definition lag_model_hess_prod (tr : TrustRegion) (v : vec) : vec :=
  let n := pb_n (pb tr) in
  vadd (vadd (fun_hess_prod (models tr) v)
             (vec_mat n (lm_nonlinear_ub tr) (cub_hess_prod (models tr) v)))
       (vec_mat n (lm_nonlinear_eq tr) (ceq_hess_prod (models tr) v)).

Definition sqp_fun (tr : TrustRegion) (step : vec) : R :=
  dot step (vadd (fun_grad (models tr) (x_best tr))
                 (vscale 0.5 (lag_model_hess_prod tr step))).

Definition sqp_cub (tr : TrustRegion) (step : vec) : vec :=
  vadd (cub (models tr) (x_best tr)) (mat_vec (cub_grad (models tr) (x_best tr)) step).

Definition sqp_ceq (tr : TrustRegion) (step : vec) : vec :=
  vadd (ceq (models tr) (x_best tr)) (mat_vec (ceq_grad (models tr) (x_best tr)) step).

(** ** The merit function *)

(** The vector whose norm the penalty multiplies. *)
Definition violation_of (xl xu : vec) (a : mat) (b : vec) (aeq : mat) (beq : vec)
    (x cub_v ceq_v : vec) : vec :=
  let c_val := vsub xl x ++ vsub x xu ++ vsub (mat_vec a x) b ++ cub_v in
  let c_val := vpos c_val in
  c_val ++ vabs (vsub (mat_vec aeq x) beq) ++ vabs ceq_v.

Definition violation (p : Problem) (x cub_v ceq_v : vec) : vec :=
  violation_of (bounds_xl p) (bounds_xu p) (linear_ub_a p) (linear_ub_b p)
               (linear_eq_a p) (linear_eq_b p) x cub_v ceq_v.

(** An argument left to [None] is obtained from the black box. *)
Definition merit (tr : TrustRegion) (x : vec)
    (fun_v : option R) (cub_v ceq_v : option vec) : R :=
  let fun_v := match fun_v with Some f => f | None => pb_fun (pb tr) x end in
  let cub_v := match cub_v with Some c => c | None => pb_cub (pb tr) x end in
  let ceq_v := match ceq_v with Some c => c | None => pb_ceq (pb tr) x end in
  let m_val := fun_v in
  if Rlt_dec 0 (penalty tr)
  then m_val + penalty tr * norm (violation (pb tr) x cub_v ceq_v)
  else m_val.

(** ** Linearizations of the constraints *)

Definition get_constraint_linearizations (tr : TrustRegion) (x : vec)
    : mat * vec * mat * vec :=
  let p := pb tr in
  let cub_g := cub_grad (models tr) x in
  let aub := linear_ub_a p ++ cub_g in
  let bub := vsub (linear_ub_b p) (mat_vec (linear_ub_a p) x) ++ vneg (cub (models tr) x) in
  let ceq_g := ceq_grad (models tr) x in
  let aeq := linear_eq_a p ++ ceq_g in
  let beq := vsub (linear_eq_b p) (mat_vec (linear_eq_a p) x) ++ vneg (ceq (models tr) x) in
  (aub, bub, aeq, beq).

(** ** The reduction ratio *)

Definition get_reduction_ratio (tr : TrustRegion) (step : vec)
    (fun_v : R) (cub_v ceq_v : vec) : R :=
  let merit_old :=
    merit tr (x_best tr) (Some (fun_best tr)) (Some (cub_best tr)) (Some (ceq_best tr)) in
  let merit_new :=
    merit tr (vadd (x_best tr) step) (Some fun_v) (Some cub_v) (Some ceq_v) in
  let merit_model_old :=
    merit tr (x_best tr) (Some 0) (Some (cub (models tr) (x_best tr)))
          (Some (ceq (models tr) (x_best tr))) in
  let merit_model_new :=
    merit tr (vadd (x_best tr) step) (Some (sqp_fun tr step))
          (Some (sqp_cub tr step)) (Some (sqp_ceq tr step)) in
  if Rlt_dec (tiny * Rabs (merit_old - merit_new)) (Rabs (merit_model_old - merit_model_new))
  then (merit_old - merit_new) / Rabs (merit_model_old - merit_model_new)
  else -1.

(** ** The best index *)

(** The merit value and the residual of the [k]-th interpolation point. *)
Definition merit_at (tr : TrustRegion) (k : nat) : R :=
  merit tr (point (models tr) k) (Some (nth k (fun_val (models tr)) 0))
        (Some (nth k (cub_val (models tr)) [])) (Some (nth k (ceq_val (models tr)) [])).

Definition resid_at (tr : TrustRegion) (k : nat) : R :=
  resid (pb tr) (point (models tr) k)
        (nth k (cub_val (models tr)) []) (nth k (ceq_val (models tr)) []).

(** The test of the loop: the point is better in merit, or almost as good in
    merit and better in residual. *)
Definition improves (tol m_val r_val m_best r_best : R) : bool :=
  Rltb m_val m_best || (Rltb m_val (m_best + tol) && Rltb r_val r_best).

(** One iteration of the loop over [k]; the triple holds the local variables
    [best_index], [m_best], [r_best], while [self.best_index] keeps its old
    value until the loop is over. *)
Definition best_index_step (tr : TrustRegion) (tol : R)
    (acc : nat * R * R) (k : nat) : nat * R * R :=
  let '(b, m_best, r_best) := acc in
  if Nat.eqb k (best_index tr) then acc
  else
    let m_val := merit_at tr k in
    let r_val := resid_at tr k in
    if improves tol m_val r_val m_best r_best then (k, m_val, r_val) else acc.

(** [max(self.models.interpolation.xpt.shape)]: [xpt] has one row per
    variable and one column per interpolation point. *)
Definition xpt_shape_max (m : Models) : nat := Nat.max (length (x_base m)) (npt m).

Definition best_index_tol (tr : TrustRegion) : R :=
  10 * eps * INR (xpt_shape_max (models tr)) * py_max (Rabs (merit_at tr (best_index tr))) 1.

Definition best_index_loop (tr : TrustRegion) : nat * R * R :=
  fold_left (best_index_step tr (best_index_tol tr)) (seq 0 (npt (models tr)))
            (best_index tr, merit_at tr (best_index tr), resid_at tr (best_index tr)).

Definition set_best_index (tr : TrustRegion) : TrustRegion :=
  with_best_index tr (fst (fst (best_index_loop tr))).

(** The variables of the loop describe an interpolation point. *)
Definition consistent (tr : TrustRegion) (acc : nat * R * R) : Prop :=
  let '(b, m, r) := acc in
  (b < npt (models tr))%nat /\ m = merit_at tr b /\ r = resid_at tr b.

(** ** The penalty parameter *)

Definition multipliers_norm (tr : TrustRegion) : R :=
  norm (lm_linear_ub tr ++ lm_linear_eq tr ++ lm_nonlinear_ub tr ++ lm_nonlinear_eq tr).

Definition viol_diff (tr : TrustRegion) (step : vec) : R :=
  let '(aub, bub, aeq, beq) := get_constraint_linearizations tr (x_best tr) in
  norm (vpos (vneg bub) ++ beq)
  - norm (vpos (vsub (mat_vec aub step) bub) ++ vsub (mat_vec aeq step) beq).

Definition penalty_threshold (tr : TrustRegion) (step : vec) : R :=
  let sqp_var := sqp_fun tr step in
  let threshold := multipliers_norm tr in
  if Rlt_dec (tiny * Rabs sqp_var) (Rabs (viol_diff tr step))
  then py_max threshold (sqp_var / viol_diff tr step)
  else threshold.

Definition increase_penalty (tr : TrustRegion) (step : vec) : TrustRegion * bool :=
  let threshold := penalty_threshold tr step in
  let best_index_save := best_index tr in
  let tr' :=
    if Rle_dec (penalty tr) (1.5 * threshold)
    then set_best_index (with_penalty tr (2 * threshold))
    else tr in
  (tr', Nat.eqb best_index_save (best_index tr')).

(** The value of [_get_low_penalty] is a float or [np.inf]. *)
Inductive bound := Finite (r : R) | PosInf.

Fixpoint list_min (a : R) (l : list R) : R :=
  match l with [] => a | b :: l' => list_min (Rmin a b) l' end.
Fixpoint list_max (a : R) (l : list R) : R :=
  match l with [] => a | b :: l' => list_max (Rmax a b) l' end.

(** [np.min(a, axis=0)] and [np.max(a, axis=0)] of an array given by its rows. *)
Definition col_min (rows : list vec) : vec :=
  match rows with [] => [] | r :: rs => fold_left (map2 Rmin) rs r end.
Definition col_max (rows : list vec) : vec :=
  match rows with [] => [] | r :: rs => fold_left (map2 Rmax) rs r end.

(** The row of [r_val] that belongs to the [k]-th interpolation point: the
    columns of [r_val_ub], then those of [r_val_eq]. *)
Definition r_val_row (tr : TrustRegion) (k : nat) : vec :=
  let p := pb tr in
  let x := point (models tr) k in
  let lin_eq := vsub (mat_vec (linear_eq_a p) x) (linear_eq_b p) in
  let ceq_k := nth k (ceq_val (models tr)) [] in
  (vsub (mat_vec (linear_ub_a p) x) (linear_ub_b p) ++ nth k (cub_val (models tr)) [])
  ++ (lin_eq ++ vneg lin_eq ++ ceq_k ++ vneg ceq_k).

(** [_get_low_penalty].  [np.min] and [np.max] are taken over arrays that
    are not empty: there is an interpolation point, and [c_max[indices]] has
    an entry when [np.any(indices)] holds. *)
Definition get_low_penalty (tr : TrustRegion) : bound :=
  let r_val := map (r_val_row tr) (seq 0 (npt (models tr))) in
  let c_min := col_min r_val in
  let c_max := col_max r_val in
  let indices := map2 (fun lo hi => Rltb lo (2 * hi)) c_min c_max in
  if existsb (fun b => b) indices then
    let f_min := list_min (hd 0 (fun_val (models tr))) (tl (fun_val (models tr))) in
    let f_max := list_max (hd 0 (fun_val (models tr))) (tl (fun_val (models tr))) in
    let c_min_neg := map (Rmin 0) (select indices c_min) in
    let diffs := vsub (select indices c_max) c_min_neg in
    let c_diff := list_min (hd 0 diffs) (tl diffs) in
    if Rlt_dec (tiny * (f_max - f_min)) c_diff
    then Finite ((f_max - f_min) / c_diff)
    else PosInf
  else Finite 0.

Definition decrease_penalty (tr : TrustRegion) : TrustRegion :=
  match get_low_penalty tr with
  | Finite low => with_penalty tr (py_min (penalty tr) low)
  | PosInf => tr
  end.

(** ** The collaborators of the framework *)

(** A lower bound handed to [lsq_linear]: a float, or [-np.inf]. *)
Definition lower_bound := option R.

(** A call to a subproblem solver with its arguments, or a warning. *)
Inductive Event :=
| CallNormal (aub : mat) (bub : vec) (aeq : mat) (beq : vec)
             (xl xu : vec) (radius : R) (debug : bool)
| CallTangential (g : vec) (hess_prod : vec -> vec)
                 (xl xu : vec) (radius : R) (debug : bool)
| CallConstrainedTangential (g : vec) (hess_prod : vec -> vec) (xl xu : vec)
                            (aub : mat) (bub : vec) (aeq : mat)
                            (radius : R) (debug : bool)
| Warn (msg : string).

Definition is_solver_call (e : Event) : bool :=
  match e with Warn _ => false | _ => true end.

(** The functions imported from [.subsolvers], [.utils] and
    [scipy.optimize].  [lsq_linear a b lb] stands for
    [lsq_linear(a, b, bounds=(lb, np.inf), method='bvls').x]. *)
Class Subsolvers := {
  normal_byrd_omojokun :
    mat -> vec -> mat -> vec -> vec -> vec -> R -> bool -> vec;
  tangential_byrd_omojokun :
    vec -> (vec -> vec) -> vec -> vec -> R -> bool -> vec;
  constrained_tangential_byrd_omojokun :
    vec -> (vec -> vec) -> vec -> vec -> mat -> vec -> mat -> R -> bool -> vec;
  get_arrays_tol : list vec -> R;
  lsq_linear : mat -> vec -> list lower_bound -> vec
}.

(** A computation that returns a value and the events it produced, in
    order. *)
Definition Traced (A : Type) : Type := A * list Event.

Definition ret {A : Type} (a : A) : Traced A := (a, []).

Definition bind {A B : Type} (m : Traced A) (k : A -> Traced B) : Traced B :=
  let '(a, t1) := m in
  let '(b, t2) := k a in
  (b, t1 ++ t2).

Notation "x <- m ;; k" := (bind m (fun x => k))
  (at level 61, m at next level, right associativity).
Notation "m ;;; k" := (bind m (fun _ => k))
  (at level 61, right associativity).

(** [if cond: warnings.warn(msg)]. *)
Definition warn_if (cond : bool) (msg : string) : Traced unit :=
  if cond then (tt, [Warn msg]) else ret tt.

Definition when (cond : bool) (m : Traced unit) : Traced unit :=
  if cond then m else ret tt.

(** [np.any(u + tol < v)] and [np.any(u < v - tol)]. *)
Definition any_plus_lt (u : vec) (tol : R) (v : vec) : bool :=
  existsb (fun b => b) (map2 (fun a c => Rltb (a + tol) c) u v).
Definition any_lt_minus (u v : vec) (tol : R) : bool :=
  existsb (fun b => b) (map2 (fun a c => Rltb a (c - tol)) u v).

Definition solver_calls (t : list Event) : list Event := filter is_solver_call t.

(** The membership test [self._pb.type in [...]]. *)
Definition type_in (ty : string) (l : list string) : bool :=
  existsb (String.eqb ty) l.

(** What the framework expects of the normal solver: its step stays in the
    trust region it is given. *)
Definition normal_contract `{Subsolvers} : Prop :=
  forall aub bub aeq beq xl xu radius dbg,
    0 <= radius ->
    norm (normal_byrd_omojokun aub bub aeq beq xl xu radius dbg) <= radius.

(** ** Steps *)

Definition get_trust_region_step `{Subsolvers} (tr : TrustRegion) (options : Options)
    : Traced (vec * vec) :=
  let '(aub, bub, aeq, beq) := get_constraint_linearizations tr (x_best tr) in
  let xl := vsub (bounds_xl (pb tr)) (x_best tr) in
  let xu := vsub (bounds_xu (pb tr)) (x_best tr) in
  normal_step <-
    (normal_byrd_omojokun aub bub aeq beq xl xu (0.8 * radius tr) (debug options),
     [CallNormal aub bub aeq beq xl xu (0.8 * radius tr) (debug options)]) ;;
  when (debug options)
    (let tol := get_arrays_tol [xl; xu] in
     warn_if (any_plus_lt normal_step tol xl || any_lt_minus xu normal_step tol)
       "the normal step does not respect the bound constraint." ;;;
     warn_if (Rltb (1.1 * 0.8 * radius tr) (norm normal_step))
       "the normal step does not respect the trust-region constraint.") ;;;
  let radius' := sqrt (radius tr ^ 2 - dot normal_step normal_step) in
  let xl := vsub xl normal_step in
  let xu := vsub xu normal_step in
  let bub := vpos (vsub bub (mat_vec aub normal_step)) in
  let g_best := vadd (fun_grad (models tr) (x_best tr))
                     (lag_model_hess_prod tr normal_step) in
  tangential_step <-
    (if type_in (pb_type (pb tr)) ["unconstrained"; "bound-constrained"]%string
     then
       (tangential_byrd_omojokun g_best (lag_model_hess_prod tr) xl xu radius'
          (debug options),
        [CallTangential g_best (lag_model_hess_prod tr) xl xu radius' (debug options)])
     else
       (constrained_tangential_byrd_omojokun g_best (lag_model_hess_prod tr) xl xu
          aub bub aeq radius' (debug options),
        [CallConstrainedTangential g_best (lag_model_hess_prod tr) xl xu
           aub bub aeq radius' (debug options)])) ;;
  when (debug options)
    (let tol := get_arrays_tol [xl; xu] in
     warn_if (any_plus_lt tangential_step tol xl || any_lt_minus xu tangential_step tol)
       "The tangential step does not respect the bound constraints." ;;;
     warn_if (Rltb (1.1 * sqrt 2 * radius tr) (norm (vadd normal_step tangential_step)))
       "The trial step does not respect the trust-region constraint.") ;;;
  ret (normal_step, tangential_step).

Definition get_second_order_correction_step `{Subsolvers} (tr : TrustRegion)
    (step : vec) (options : Options) : Traced vec :=
  let '(aub, bub, aeq, beq) := get_constraint_linearizations tr (x_best tr) in
  let xl := vsub (bounds_xl (pb tr)) (x_best tr) in
  let xu := vsub (bounds_xu (pb tr)) (x_best tr) in
  let radius' := dot step step in
  soc_step <-
    (normal_byrd_omojokun aub bub aeq beq xl xu radius' (debug options),
     [CallNormal aub bub aeq beq xl xu radius' (debug options)]) ;;
  when (debug options)
    (let tol := get_arrays_tol [xl; xu] in
     warn_if (any_plus_lt soc_step tol xl || any_lt_minus xu soc_step tol)
       "The second-order correction step does not respect the bound constraints." ;;;
     warn_if (Rltb (1.1 * radius') (norm soc_step))
       "The second-order correction step does not respect the trust-region constraint.") ;;;
  ret soc_step.

(** ** The Lagrange multipliers *)

(** [np.eye(n)]. *)
Definition eye (n : nat) : mat :=
  map (fun i => map (fun j => if Nat.eqb i j then 1 else 0) (seq 0 n)) (seq 0 n).

(** [a.T] for an array with [n] columns. *)
Definition transpose (n : nat) (a : mat) : mat :=
  map (fun j => map (fun row => nth j row 0) a) (seq 0 n).

(** [x[i:j]]. *)
Definition slice (i j : nat) (x : vec) : vec := firstn (j - i) (skipn i x).

(** [a.fill(0.0)] followed by [a[mask] = vals]: the entries where the mask
    holds receive the values in order, the others are zero. *)
Fixpoint fill_masked (mask : list bool) (vals : vec) (a : vec) : vec :=
  match a, mask with
  | [], _ => []
  | _ :: a', [] => 0 :: fill_masked [] vals a'
  | _ :: a', false :: mask' => 0 :: fill_masked mask' vals a'
  | _ :: a', true :: mask' =>
      match vals with
      | v :: vals' => v :: fill_masked mask' vals' a'
      | [] => 0 :: fill_masked mask' [] a'
      end
  end.

Definition incl_linear (tr : TrustRegion) : list bool :=
  map2 (fun ax b => Rleb b ax) (mat_vec (linear_ub_a (pb tr)) (x_best tr)) (linear_ub_b (pb tr)).
Definition incl_nonlinear (tr : TrustRegion) : list bool :=
  map (fun c => Rleb 0 c) (cub_best tr).
Definition incl_xl (tr : TrustRegion) : list bool :=
  map2 (fun l x => Rleb x l) (bounds_xl (pb tr)) (x_best tr).
Definition incl_xu (tr : TrustRegion) : list bool :=
  map2 (fun u x => Rleb u x) (bounds_xu (pb tr)) (x_best tr).

(** The Jacobian of the active constraints, [c_jac]. *)
Definition c_jac (tr : TrustRegion) : mat :=
  let identity := eye (pb_n (pb tr)) in
  map vneg (select (incl_xl tr) identity)
  ++ select (incl_xu tr) identity
  ++ select (incl_linear tr) (linear_ub_a (pb tr))
  ++ cub_grad_mask (models tr) (x_best tr) (incl_nonlinear tr)
  ++ linear_eq_a (pb tr)
  ++ ceq_grad (models tr) (x_best tr).

(** [c_jac.size], the number of entries of an array with [n] columns. *)
Definition mat_size (n : nat) (a : mat) : nat := (length a * n)%nat.

(** [xl_lm]: zero on the first [m] entries and [-np.inf] on the others. *)
Definition xl_lm (rows m : nat) : list lower_bound :=
  map (fun i => if Nat.ltb i m then Some 0 else None) (seq 0 rows).

Definition set_multipliers `{Subsolvers} (tr : TrustRegion) : TrustRegion :=
  let m_linear := count_nonzero (incl_linear tr) in
  let m_nonlinear := count_nonzero (incl_nonlinear tr) in
  let m_xl := count_nonzero (incl_xl tr) in
  let m_xu := count_nonzero (incl_xu tr) in
  let jac := c_jac tr in
  if Nat.ltb 0 (mat_size (pb_n (pb tr)) jac) then
    let g_best := fun_grad (models tr) (x_best tr) in
    let lb := xl_lm (length jac) (m_xl + m_xu + m_linear + m_nonlinear) in
    let res_x := lsq_linear (transpose (pb_n (pb tr)) jac) (vneg g_best) lb in
    with_multipliers tr
      (fill_masked (incl_linear tr)
         (slice (m_xl + m_xu) (m_xl + m_xu + m_linear) res_x) (lm_linear_ub tr))
      (slice (m_xl + m_xu + m_linear + m_nonlinear)
         (m_xl + m_xu + m_linear + m_nonlinear + m_linear_eq (pb tr)) res_x)
      (fill_masked (incl_nonlinear tr)
         (slice (m_xl + m_xu + m_linear)
            (m_xl + m_xu + m_linear + m_nonlinear) res_x) (lm_nonlinear_ub tr))
      (skipn (m_xl + m_xu + m_linear + m_nonlinear + m_linear_eq (pb tr)) res_x)
  else tr.

(** What the framework expects of [lsq_linear]: one unknown per lower bound,
    each at least its lower bound. *)
Definition bvls_contract `{Subsolvers} : Prop :=
  forall (a : mat) (b : vec) (lb : list lower_bound),
    length (lsq_linear a b lb) = length lb
    /\ (forall i l x, nth_error lb i = Some (Some l) ->
                      nth_error (lsq_linear a b lb) i = Some x -> l <= x).

(** ** Construction *)

(** [TrustRegion.__init__].  The models are built by [Models(pb, options)]
    and received here; [e_ub], [e_eq], [e_nub], [e_neq] are the contents of
    the four arrays that [np.empty] allocates, which the allocator leaves
    unspecified.  The radius and the resolution, assigned last, are read by
    none of the earlier statements. *)
Definition TrustRegion_init `{Subsolvers} (p : Problem) (m : Models) (options : Options)
    (e_ub e_eq e_nub e_neq : vec) : TrustRegion :=
  let tr := {| pb := p; models := m; penalty := 0; best_index := 0%nat;
               lm_linear_ub := e_ub; lm_linear_eq := e_eq;
               lm_nonlinear_ub := e_nub; lm_nonlinear_eq := e_neq;
               resolution := radius_init options; radius := radius_init options |} in
  let tr := match get_low_penalty tr with
            | Finite low => with_penalty tr low
            | PosInf => with_penalty tr 0
            end in
  let tr := with_best_index tr 0 in
  let tr := set_best_index tr in
  let tr := set_multipliers tr in
  let tr := set_resolution tr (radius_init options) in
  assign_radius tr (resolution tr).

(** Calls made by the driver to the two methods that move the radius and the
    resolution. *)
Inductive Call :=
| UpdateRadius (step : vec) (ratio : R)
| ReduceResolution.

Definition run_call (options : Options) (tr : TrustRegion) (c : Call) : TrustRegion :=
  match c with
  | UpdateRadius step ratio => update_radius tr step ratio
  | ReduceResolution => reduce_resolution tr options
  end.

Definition run_calls (options : Options) (tr : TrustRegion) (cs : list Call) : TrustRegion :=
  fold_left (run_call options) cs tr.

(** The relation between the radius, the resolution and the final radius. *)
Definition radius_invariant (options : Options) (tr : TrustRegion) : Prop :=
  radius_final options <= resolution tr <= radius tr.

(** ** Feasibility *)

(** The point [x], with the values [cub_v] and [ceq_v] of the nonlinear
    constraints, satisfies every constraint of the problem. *)
Definition feasible (p : Problem) (x cub_v ceq_v : vec) : Prop :=
  Forall (fun c => c <= 0)
         (vsub (bounds_xl p) x ++ vsub x (bounds_xu p)
          ++ vsub (mat_vec (linear_ub_a p) x) (linear_ub_b p) ++ cub_v)
  /\ Forall (fun c => c = 0)
            (vsub (mat_vec (linear_eq_a p) x) (linear_eq_b p) ++ ceq_v).

(** The problem has neither linear nor nonlinear constraints, and the models
    hold none either. *)
Definition no_general_constraints (p : Problem) (m : Models) : Prop :=
  linear_ub_a p = [] /\ linear_ub_b p = []
  /\ linear_eq_a p = [] /\ linear_eq_b p = []
  /\ (forall k, nth k (cub_val m) [] = []) /\ (forall k, nth k (ceq_val m) [] = [])
  /\ (forall x, cub m x = []) /\ (forall x, cub_grad m x = [])
  /\ (forall x, ceq m x = []) /\ (forall x, ceq_grad m x = []).

(** ** The methods that change the state *)

Inductive Method :=
| MUpdateRadius (step : vec) (ratio : R)
| MReduceResolution
| MIncreasePenalty (step : vec)
| MDecreasePenalty
| MSetBestIndex
| MSetMultipliers.

Definition run_method `{Subsolvers} (options : Options) (tr : TrustRegion) (m : Method)
    : TrustRegion :=
  match m with
  | MUpdateRadius step ratio => update_radius tr step ratio
  | MReduceResolution => reduce_resolution tr options
  | MIncreasePenalty step => fst (increase_penalty tr step)
  | MDecreasePenalty => decrease_penalty tr
  | MSetBestIndex => set_best_index tr
  | MSetMultipliers => set_multipliers tr
  end.

Definition run_methods `{Subsolvers} (options : Options) (tr : TrustRegion)
    (ms : list Method) : TrustRegion :=
  fold_left (run_method options) ms tr.

(** What every state of a run satisfies. *)
Definition state_invariant (options : Options) (tr : TrustRegion) : Prop :=
  radius_final options <= resolution tr <= radius tr
  /\ 0 <= penalty tr
  /\ (best_index tr < npt (models tr))%nat.

(** What the framework expects of the two tangential solvers: their step
    stays in the trust region they are given. *)
Definition tangential_contract `{Subsolvers} : Prop :=
  (forall g hp xl xu radius dbg,
      0 <= radius ->
      norm (tangential_byrd_omojokun g hp xl xu radius dbg) <= radius)
  /\ (forall g hp xl xu aub bub aeq radius dbg,
         0 <= radius ->
         norm (constrained_tangential_byrd_omojokun g hp xl xu aub bub aeq radius dbg)
         <= radius).

(** ** The index to remove *)

(** The methods of [Models] that the framework calls on a trial point:
    [denominators(x)] gives one value per interpolation point, and
    [denominators(x, k)] the value that belongs to the point [k]. *)
Class ModelOracles := {
  denominators : Models -> vec -> vec;
  denominator : Models -> vec -> nat -> R
}.

(** [np.argmax]: the first index of the largest entry ([np.argmax] raises on
    an empty array, where this gives 0).  [best] and [best_v] are the index
    and the value of the largest entry so far, [i] the index of the head of
    the list. *)
Fixpoint argmax_from (best i : nat) (best_v : R) (l : list R) : nat :=
  match l with
  | [] => best
  | a :: l' =>
      if Rlt_dec best_v a then argmax_from i (S i) a l'
      else argmax_from best (S i) best_v l'
  end.

Definition argmax (l : list R) : nat :=
  match l with
  | [] => 0%nat
  | a :: l' => argmax_from 0 1 a l'
  end.

(** [dist_sq]: for each interpolation point, the square of its distance to
    the best point. *)
Definition dist_sq (tr : TrustRegion) : vec :=
  map (fun c =>
         vsum (map (fun d => d * d)
                   (vsub c (nth (best_index tr) (xpt (models tr)) []))))
      (xpt (models tr)).

(** [weights * np.abs(sigma)]. *)
Definition removal_scores `{ModelOracles} (tr : TrustRegion) (x_new : option vec) : vec :=
  match x_new with
  | None => map (fun w => w * Rabs 1) (dist_sq tr)
  | Some x =>
      let sigma := denominators (models tr) x in
      let weights :=
        map (fun ds =>
               Rmax 1 (ds / py_max (0.1 * radius tr) (resolution tr) ^ 2) ^ 3)
            (dist_sq tr) in
      map2 Rmult weights (vabs sigma)
  end.

Definition get_index_to_remove `{ModelOracles} (tr : TrustRegion) (x_new : option vec)
    : nat * R :=
  let k_max := argmax (removal_scores tr x_new) in
  (k_max, sqrt (nth k_max (dist_sq tr) 0)).

(** ** The geometry-improving step *)

(** The [k_new]-th Lagrange polynomial, built by [Quadratic] in [models.py]
    ([lag.grad], [lag.hess_prod] and [lag.curv]), and the three functions of
    [.subsolvers] that the geometry step calls.  The function
    [qr_tangential_byrd_omojokun] returns [n_act] and the rows of [q]. *)
Class GeometrySolvers := {
  lag_grad : Models -> nat -> vec -> vec;
  lag_hess_prod : Models -> nat -> vec -> vec;
  lag_curv : Models -> nat -> vec -> R;
  cauchy_geometry : R -> vec -> (vec -> vec) -> vec -> vec -> R -> bool -> vec;
  spider_geometry :
    R -> vec -> (vec -> vec) -> list vec -> vec -> vec -> R -> bool -> vec;
  qr_tangential_byrd_omojokun :
    mat -> mat -> list bool -> list bool -> list bool -> nat * mat
}.

(** [l[k] = v] on a list (nothing happens out of range, where numpy raises). *)
Fixpoint set_nth {A : Type} (k : nat) (v : A) (l : list A) : list A :=
  match l, k with
  | [], _ => []
  | _ :: l', O => v :: l'
  | a :: l', S k' => a :: set_nth k' v l'
  end.

(** The columns of [xpt - xpt[:, best, np.newaxis]]. *)
Definition shifted_xpt (tr : TrustRegion) : list vec :=
  map (fun c => vsub c (nth (best_index tr) (xpt (models tr)) [])) (xpt (models tr)).

(** The directions given to [spider_geometry]: the columns 0 and
    [best_index] are exchanged, and the first column is left out. *)
Definition spider_directions (tr : TrustRegion) : list vec :=
  let cols := shifted_xpt tr in
  let c0 := nth 0 cols [] in
  let cb := nth (best_index tr) cols [] in
  tl (set_nth (best_index tr) c0 (set_nth 0 cb cols)).

(** [q[:, n_act:] @ (q[:, n_act:].T @ g)] for a matrix [q] with [n]
    columns. *)
Definition project_free (n n_act : nat) (q : mat) (g : vec) : vec :=
  let qs := map (skipn n_act) q in
  mat_vec qs (mat_vec (transpose (n - n_act) qs) g).

(** [np.maximum(xl, np.minimum(step, xu))]. *)
Definition clip (xl step xu : vec) : vec := map2 Rmax xl (map2 Rmin step xu).

(** The step along the projected gradient, with the test that decides
    whether it replaces [step]: the result is the new step, or [step]. *)
Definition projected_step `{Subsolvers} `{ModelOracles} `{GeometrySolvers}
    (tr : TrustRegion) (k_new : nat) (g_lag xl xu step : vec) (sigma : R) : vec :=
  let '(aub, bub, aeq, beq) := get_constraint_linearizations tr (x_best tr) in
  let tol_bd := get_arrays_tol [xl; xu] in
  let tol_ub := get_arrays_tol [bub] in
  let free_xl := map (fun l => Rleb l (- tol_bd)) xl in
  let free_xu := map (fun u => Rleb tol_bd u) xu in
  let free_ub := map (fun b => Rleb tol_ub b) bub in
  let '(n_act, q) := qr_tangential_byrd_omojokun aub aeq free_xl free_xu free_ub in
  let g_lag_proj := project_free (pb_n (pb tr)) n_act q g_lag in
  let norm_g_lag_proj := norm g_lag_proj in
  if (Nat.ltb 0 n_act && Nat.ltb n_act (pb_n (pb tr)))
     && Rltb (tiny * radius tr) norm_g_lag_proj
  then
    let step_alt := vscale (radius tr / norm_g_lag_proj) g_lag_proj in
    let step_alt :=
      if Rlt_dec (lag_curv (models tr) k_new step_alt) 0 then vneg step_alt
      else step_alt in
    let cub_r := vsub (mat_vec aub step_alt) bub in
    let ceq_r := vsub (mat_vec aeq step_alt) beq in
    let cbd := vsub step_alt xu ++ vsub xl step_alt in
    let resid_r :=
      py_max (py_max (list_max 0 cub_r) (list_max 0 (vabs ceq_r))) (list_max 0 cbd) in
    let tol := list_max 0 (vabs (select (map negb free_xl) step_alt)) in
    let tol := list_max tol (vabs (select (map negb free_xu) step_alt)) in
    let tol :=
      list_max tol (vabs (mat_vec (select (map negb free_ub) aub) step_alt)) in
    let tol := py_min (10 * tol) (0.01 * norm step_alt) in
    if Rle_dec resid_r tol then
      let sigma_alt := denominator (models tr) (vadd (x_best tr) step_alt) k_new in
      if Rle_dec (0.1 * Rabs sigma) (Rabs sigma_alt)
      then clip xl step_alt xu
      else step
    else step
  else step.

Definition get_geometry_step `{Subsolvers} `{ModelOracles} `{GeometrySolvers}
    (tr : TrustRegion) (k_new : nat) (options : Options) : Traced vec :=
  let g_lag := lag_grad (models tr) k_new (point (models tr) k_new) in
  let xl := vsub (bounds_xl (pb tr)) (x_best tr) in
  let xu := vsub (bounds_xu (pb tr)) (x_best tr) in
  let step :=
    cauchy_geometry 0 g_lag (lag_hess_prod (models tr) k_new) xl xu (radius tr)
                    (debug options) in
  let sigma := denominator (models tr) (vadd (x_best tr) step) k_new in
  let step_alt :=
    spider_geometry 0 g_lag (lag_hess_prod (models tr) k_new) (spider_directions tr)
                    xl xu (radius tr) (debug options) in
  let sigma_alt := denominator (models tr) (vadd (x_best tr) step_alt) k_new in
  let '(step, sigma) :=
    if Rle_dec (Rabs sigma) (Rabs sigma_alt) then (step_alt, sigma_alt)
    else (step, sigma) in
  let step :=
    if type_in (pb_type (pb tr)) ["linearly constrained"; "nonlinearly constrained"]%string
    then projected_step tr k_new g_lag xl xu step sigma
    else step in
  when (debug options)
    (let tol := get_arrays_tol [xl; xu] in
     warn_if (any_plus_lt step tol xl || any_lt_minus xu step tol)
       "The geometry step does not respect the bound constraints." ;;;
     warn_if (Rltb (1.1 * radius tr) (norm step))
       "The geometry step does not respect the trust-region constraint.") ;;;
  ret step.

(** Every entry of [s] lies between the entries of [xl] and [xu] at the same
    place. *)
Definition within_bounds (xl s xu : vec) : Prop :=
  forall i, (i < length s)%nat -> nth i xl 0 <= nth i s 0 <= nth i xu 0.

(** ** Instances used in the examples *)

(** Solvers that always answer with the zero step, and a least-squares solver
    that answers with the lower bounds (zero where there is none). *)
Definition zeros_like (v : vec) : vec := map (fun _ => 0) v.

Definition zero_solvers : Subsolvers := {|
  normal_byrd_omojokun := fun _ _ _ _ xl _ _ _ => zeros_like xl;
  tangential_byrd_omojokun := fun _ _ xl _ _ _ => zeros_like xl;
  constrained_tangential_byrd_omojokun := fun _ _ xl _ _ _ _ _ _ => zeros_like xl;
  get_arrays_tol := fun _ => 0;
  lsq_linear := fun _ _ lb => map (fun l => match l with Some r => r | None => 0 end) lb
|}.

(** The same with a least-squares solver that answers one above each lower
    bound (and -1 where there is none). *)
Definition plus_one_solvers : Subsolvers := {|
  normal_byrd_omojokun := fun _ _ _ _ xl _ _ _ => zeros_like xl;
  tangential_byrd_omojokun := fun _ _ xl _ _ _ => zeros_like xl;
  constrained_tangential_byrd_omojokun := fun _ _ xl _ _ _ _ _ _ => zeros_like xl;
  get_arrays_tol := fun _ => 0;
  lsq_linear := fun _ _ lb =>
    map (fun l => match l with Some r => r + 1 | None => -1 end) lb
|}.

(** [Problem.resid] as the largest violation of a constraint. *)
Definition max_violation (xl xu : vec) (a : mat) (b : vec) (aeq : mat) (beq : vec)
    (x cub_v ceq_v : vec) : R :=
  list_max 0 (violation_of xl xu a b aeq beq x cub_v ceq_v).

(** One variable in [[-10, 10]], the linear constraint [x <= 5] and the
    nonlinear constraint [x^2 + x - 1 <= 0]; the objective is the quadratic
    [- eps x^2 - (1 + eps) x], which takes the values 0, [-1 - 2 eps] and 1
    at 0, 1 and -1. *)
Definition demo_problem : Problem :=
  {| pb_n := 1; bounds_xl := [-10]; bounds_xu := [10];
     linear_ub_a := [[1]]; linear_ub_b := [5];
     linear_eq_a := []; linear_eq_b := [];
     m_nonlinear_ub := 1; m_nonlinear_eq := 0;
     pb_fun := fun x => vsum (map (fun xi => - eps * (xi * xi) - (1 + eps) * xi) x);
     pb_cub := fun x => map (fun xi => xi * xi + xi - 1) x;
     pb_ceq := fun _ => [];
     resid := max_violation [-10] [10] [[1]] [5] [] [];
     pb_type := "nonlinearly constrained" |}.

(** The interpolation set built around 0 with the radius 1: the points 0, 1
    and -1, the values of the objective and of the constraint at them, and
    the quadratic models that interpolate these values.  The point 0 is
    feasible; the point 1 violates the nonlinear constraint by 1. *)
Definition demo_models : Models :=
  {| x_base := [0]; xpt := [[0]; [1]; [-1]];
     fun_val := [0; - 1 - 2 * eps; 1];
     cub_val := [[-1]; [1]; [-1]];
     ceq_val := [[]; []; []];
     fun_grad := fun x => map (fun xi => - 2 * eps * xi - (1 + eps)) x;
     cub := fun x => map (fun xi => xi * xi + xi - 1) x;
     cub_grad := fun x => [map (fun xi => 2 * xi + 1) x];
     cub_grad_mask := fun x mask => select mask [map (fun xi => 2 * xi + 1) x];
     ceq := fun _ => [];
     ceq_grad := fun _ => [];
     fun_hess_prod := fun v => vscale (- 2 * eps) v;
     cub_hess_prod := fun v => [vscale 2 v];
     ceq_hess_prod := fun _ => [] |}.

(** The state at the point 0 with the penalty [1 + eps], the value that
    [_get_low_penalty] gives on these models: the merit values of the three
    points are 0, [-eps] and 1. *)
Definition demo_state : TrustRegion :=
  {| pb := demo_problem; models := demo_models; penalty := 1 + eps; best_index := 0%nat;
     lm_linear_ub := [0]; lm_linear_eq := [];
     lm_nonlinear_ub := [0]; lm_nonlinear_eq := [];
     resolution := 1; radius := 1 |}.

Definition demo_options : Options :=
  {| radius_init := 1; radius_final := 0.001; debug := true |}.

(** The same problem with the objective [(x + 1)^2] and the nonlinear
    constraint [x^2 - 4 <= 0], and the interpolation points 0, 1 and -1, at
    which no constraint is active. *)
Definition slack_problem : Problem :=
  {| pb_n := 1; bounds_xl := [-10]; bounds_xu := [10];
     linear_ub_a := [[1]]; linear_ub_b := [5];
     linear_eq_a := []; linear_eq_b := [];
     m_nonlinear_ub := 1; m_nonlinear_eq := 0;
     pb_fun := fun x => vsum (map (fun xi => (xi + 1) * (xi + 1)) x);
     pb_cub := fun x => map (fun xi => xi * xi - 4) x;
     pb_ceq := fun _ => [];
     resid := max_violation [-10] [10] [[1]] [5] [] [];
     pb_type := "nonlinearly constrained" |}.

Definition slack_models : Models :=
  {| x_base := [0]; xpt := [[0]; [1]; [-1]];
     fun_val := [1; 4; 0];
     cub_val := [[-4]; [-3]; [-3]];
     ceq_val := [[]; []; []];
     fun_grad := fun x => map (fun xi => 2 * xi + 2) x;
     cub := fun x => map (fun xi => xi * xi - 4) x;
     cub_grad := fun x => [map (fun xi => 2 * xi) x];
     cub_grad_mask := fun x mask => select mask [map (fun xi => 2 * xi) x];
     ceq := fun _ => [];
     ceq_grad := fun _ => [];
     fun_hess_prod := fun v => vscale 2 v;
     cub_hess_prod := fun v => [vscale 2 v];
     ceq_hess_prod := fun _ => [] |}.

(** A state at the point 0 whose multipliers are those an earlier call
    computed when both constraints were active. *)
Definition stale_state : TrustRegion :=
  {| pb := slack_problem; models := slack_models; penalty := 0; best_index := 0%nat;
     lm_linear_ub := [3]; lm_linear_eq := [];
     lm_nonlinear_ub := [2]; lm_nonlinear_eq := [];
     resolution := 1; radius := 1 |}.

(** The objective [(x + 1)^2] on one variable in [[-10, 10]], without other
    constraints, and its interpolation set at 0, 1 and -1. *)
Definition bound_problem : Problem :=
  {| pb_n := 1; bounds_xl := [-10]; bounds_xu := [10];
     linear_ub_a := []; linear_ub_b := [];
     linear_eq_a := []; linear_eq_b := [];
     m_nonlinear_ub := 0; m_nonlinear_eq := 0;
     pb_fun := fun x => vsum (map (fun xi => (xi + 1) * (xi + 1)) x);
     pb_cub := fun _ => [];
     pb_ceq := fun _ => [];
     resid := max_violation [-10] [10] [] [] [] [];
     pb_type := "bound-constrained" |}.

Definition bound_models : Models :=
  {| x_base := [0]; xpt := [[0]; [1]; [-1]];
     fun_val := [1; 4; 0];
     cub_val := [[]; []; []];
     ceq_val := [[]; []; []];
     fun_grad := fun x => map (fun xi => 2 * xi + 2) x;
     cub := fun _ => [];
     cub_grad := fun _ => [];
     cub_grad_mask := fun _ _ => [];
     ceq := fun _ => [];
     ceq_grad := fun _ => [];
     fun_hess_prod := fun v => vscale 2 v;
     cub_hess_prod := fun _ => [];
     ceq_hess_prod := fun _ => [] |}.

Definition bound_state : TrustRegion :=
  {| pb := bound_problem; models := bound_models; penalty := 0; best_index := 2%nat;
     lm_linear_ub := []; lm_linear_eq := [];
     lm_nonlinear_ub := []; lm_nonlinear_eq := [];
     resolution := 1; radius := 1 |}.

(** Models whose denominators are all one, solvers of the geometry step that
    answer the zero step and report no active constraint, and the options of
    a run without checks. *)
Definition unit_oracles : ModelOracles := {|
  denominators := fun m _ => map (fun _ => 1) (xpt m);
  denominator := fun _ _ _ => 1
|}.

Definition zero_geometry : GeometrySolvers := {|
  lag_grad := fun _ _ x => zeros_like x;
  lag_hess_prod := fun _ _ v => zeros_like v;
  lag_curv := fun _ _ _ => 0;
  cauchy_geometry := fun _ _ _ xl _ _ _ => zeros_like xl;
  spider_geometry := fun _ _ _ _ xl _ _ _ => zeros_like xl;
  qr_tangential_byrd_omojokun := fun _ _ _ _ _ => (0%nat, [])
|}.


(** ** Properties *)

Lemma tiny_pos : 0 < tiny.
Proof. unfold tiny. apply Rinv_0_lt_compat, pow_lt. lra. Qed.

Lemma eps_pos : 0 < eps.
Proof. unfold eps. apply Rinv_0_lt_compat, pow_lt. lra. Qed.

Lemma py_max_Rmax (a b : R) : py_max a b = Rmax a b.
Proof.
  unfold py_max, Rmax.
  destruct (Rlt_dec a b), (Rle_dec a b); lra.
Qed.

Lemma py_min_Rmin (a b : R) : py_min a b = Rmin a b.
Proof.
  unfold py_min, Rmin.
  destruct (Rlt_dec b a), (Rle_dec a b); lra.
Qed.

Lemma dot_self_nonneg (v : vec) : 0 <= dot v v.
Proof.
  unfold dot, vsum.
  induction v as [|a v IH]; simpl.
  - lra.
  - pose proof (Rle_0_sqr a) as Ha. unfold Rsqr in Ha. lra.
Qed.

Lemma norm_nonneg (v : vec) : 0 <= norm v.
Proof. apply sqrt_pos. Qed.

Lemma norm_sqr (v : vec) : norm v ^ 2 = dot v v.
Proof.
  unfold norm. simpl. rewrite Rmult_1_r.
  apply sqrt_sqrt, dot_self_nonneg.
Qed.

(** ** Radius and resolution *)

Lemma set_radius_resolution (tr : TrustRegion) (r : R) :
  resolution (set_radius tr r) = resolution tr.
Proof.
  unfold set_radius. simpl.
  destruct (Rle_dec r (1.4 * resolution tr)); reflexivity.
Qed.

Lemma set_radius_snap (tr : TrustRegion) (r : R) :
  (r <= 1.4 * resolution tr -> radius (set_radius tr r) = resolution tr)
  /\ (1.4 * resolution tr < r -> radius (set_radius tr r) = r).
Proof.
  unfold set_radius. simpl.
  destruct (Rle_dec r (1.4 * resolution tr)); simpl; split; intros; lra.
Qed.

(** The value that [update_radius] hands to the setter of [radius]. *)
Lemma update_radius_as_setter (tr : TrustRegion) (step : vec) (ratio : R) :
  exists new,
    update_radius tr step ratio = set_radius tr new
    /\ (ratio <= 0.1 -> new = radius tr / 2)
    /\ (0.1 < ratio <= 0.7 -> new = Rmax (radius tr / 2) (norm step))
    /\ (0.7 < ratio ->
        new = Rmin (sqrt 2 * radius tr) (Rmax (radius tr / 2) (2 * norm step))).
Proof.
  unfold update_radius.
  destruct (Rle_dec ratio 0.1) as [H1|H1]; [|destruct (Rle_dec ratio 0.7) as [H7|H7]].
  - exists (radius tr * 0.5). repeat split; intros; try reflexivity; lra.
  - exists (py_max (0.5 * radius tr) (norm step)).
    repeat split; intros; try reflexivity; try lra.
    rewrite py_max_Rmax. f_equal. lra.
  - exists (py_min (sqrt 2 * radius tr) (py_max (0.5 * radius tr) (2 * norm step))).
    repeat split; intros; try reflexivity; try lra.
    rewrite py_min_Rmin, py_max_Rmax. do 2 f_equal. lra.
Qed.

(** C6: [update_radius] hands to the setter of the radius the value
    [radius / 2] when [ratio <= 0.1], [max (radius / 2) |step|] when
    [0.1 < ratio <= 0.7], and
    [min (sqrt 2 * radius) (max (radius / 2) (2 * |step|))] otherwise; the
    stored radius is the resolution when that value is at most 1.4 times
    the resolution, and that value otherwise; the resolution is unchanged. *)
Theorem update_radius_spec (tr : TrustRegion) (step : vec) (ratio : R) :
  exists new,
    (ratio <= 0.1 -> new = radius tr / 2)
    /\ (0.1 < ratio <= 0.7 -> new = Rmax (radius tr / 2) (norm step))
    /\ (0.7 < ratio ->
        new = Rmin (sqrt 2 * radius tr) (Rmax (radius tr / 2) (2 * norm step)))
    /\ (new <= 1.4 * resolution tr ->
        radius (update_radius tr step ratio) = resolution tr)
    /\ (1.4 * resolution tr < new ->
        radius (update_radius tr step ratio) = new)
    /\ resolution (update_radius tr step ratio) = resolution tr.
Proof.
  destruct (update_radius_as_setter tr step ratio) as (new & -> & Ha & Hb & Hc).
  exists new.
  destruct (set_radius_snap tr new) as [Hs Hn].
  repeat split; auto using set_radius_resolution.
Qed.

Lemma reduce_resolution_resolution (tr : TrustRegion) (options : Options) :
  (250 * radius_final options < resolution tr ->
   resolution (reduce_resolution tr options) = resolution tr / 10)
  /\ (16 * radius_final options < resolution tr <= 250 * radius_final options ->
      resolution (reduce_resolution tr options)
      = sqrt (resolution tr * radius_final options))
  /\ (resolution tr <= 250 * radius_final options ->
      resolution tr <= 16 * radius_final options ->
      resolution (reduce_resolution tr options) = radius_final options).
Proof.
  unfold reduce_resolution.
  destruct (Rlt_dec (250 * radius_final options) (resolution tr)) as [H1|H1];
    [|destruct (Rlt_dec (16 * radius_final options) (resolution tr)) as [H2|H2]];
    simpl; repeat split; intros; lra.
Qed.

Lemma reduce_resolution_radius (tr : TrustRegion) (options : Options) :
  radius (reduce_resolution tr options)
  = Rmax (radius tr / 2) (resolution (reduce_resolution tr options)).
Proof.
  unfold reduce_resolution.
  destruct (Rlt_dec (250 * radius_final options) (resolution tr)) as [H1|H1];
    [|destruct (Rlt_dec (16 * radius_final options) (resolution tr)) as [H2|H2]];
    simpl; rewrite py_max_Rmax; f_equal; lra.
Qed.


(** C7: [reduce_resolution] sets the resolution to a tenth of itself when it
    exceeds 250 times the final radius, to [sqrt (resolution * radius_final)]
    when it exceeds 16 times but not 250 times the final radius, and to the
    final radius otherwise; the radius becomes
    [max (radius / 2) new_resolution], stored without the rule of the setter,
    so that it can end strictly between the resolution and 1.4 times the
    resolution (it does from a state whose radius and resolution are 2.5,
    with the final radius 1). *)
Theorem reduce_resolution_spec :
  (forall (tr : TrustRegion) (options : Options),
      let tr' := reduce_resolution tr options in
      (250 * radius_final options < resolution tr ->
       resolution tr' = resolution tr / 10)
      /\ (16 * radius_final options < resolution tr <= 250 * radius_final options ->
          resolution tr' = sqrt (resolution tr * radius_final options))
      /\ (resolution tr <= 250 * radius_final options ->
          resolution tr <= 16 * radius_final options ->
          resolution tr' = radius_final options)
      /\ radius tr' = Rmax (radius tr / 2) (resolution tr'))
  /\ (exists (tr : TrustRegion) (options : Options),
         let tr' := reduce_resolution tr options in
         0 < radius_final options <= resolution tr
         /\ radius tr = resolution tr
         /\ resolution tr' < radius tr' < 1.4 * resolution tr').
Proof.
  split.
  - intros tr options tr'. subst tr'.
    destruct (reduce_resolution_resolution tr options) as (Ha & Hb & Hc).
    repeat split; auto using reduce_resolution_radius.
  - exists (assign_radius (set_resolution demo_state 2.5) 2.5).
    exists {| radius_init := 2.5; radius_final := 1; debug := false |}.
    unfold reduce_resolution. simpl.
    destruct (Rlt_dec (250 * 1) 2.5) as [H|_]; [exfalso; lra|].
    destruct (Rlt_dec (16 * 1) 2.5) as [H|_]; [exfalso; lra|].
    simpl. rewrite py_max_Rmax.
    replace (Rmax (2.5 * 0.5) 1) with 1.25
      by (unfold Rmax; destruct (Rle_dec (2.5 * 0.5) 1); lra).
    lra.
Qed.

Lemma update_radius_invariant (options : Options) (tr : TrustRegion)
    (step : vec) (ratio : R) :
  0 < radius_final options ->
  radius_invariant options tr ->
  radius_invariant options (update_radius tr step ratio).
Proof.
  intros Hpos [Hf Hr].
  destruct (update_radius_as_setter tr step ratio) as (new & -> & _).
  unfold radius_invariant. rewrite set_radius_resolution.
  split; [assumption|].
  destruct (set_radius_snap tr new) as [Hs Hn].
  destruct (Rle_dec new (1.4 * resolution tr)) as [H|H].
  - rewrite Hs by assumption. lra.
  - rewrite Hn by lra. lra.
Qed.

Lemma reduce_resolution_invariant (options : Options) (tr : TrustRegion) :
  0 < radius_final options ->
  radius_invariant options tr ->
  radius_invariant options (reduce_resolution tr options).
Proof.
  intros Hpos [Hf Hr].
  unfold radius_invariant.
  rewrite reduce_resolution_radius.
  split; [|apply Rmax_r].
  destruct (reduce_resolution_resolution tr options) as (Ha & Hb & Hc).
  destruct (Rlt_dec (250 * radius_final options) (resolution tr)) as [H1|H1];
    [|destruct (Rlt_dec (16 * radius_final options) (resolution tr)) as [H2|H2]].
  - rewrite Ha by assumption. lra.
  - rewrite Hb by lra.
    rewrite <- (sqrt_square (radius_final options)) at 1 by lra.
    apply sqrt_le_1_alt. nra.
  - rewrite Hc by lra. lra.
Qed.

Lemma run_calls_invariant (options : Options) (cs : list Call) (tr : TrustRegion) :
  0 < radius_final options ->
  radius_invariant options tr ->
  radius_invariant options (run_calls options tr cs).
Proof.
  intros Hpos. revert tr.
  induction cs as [|c cs IH]; intros tr Hinv; simpl.
  - assumption.
  - apply IH. destruct c as [step ratio|]; simpl.
    + now apply update_radius_invariant.
    + now apply reduce_resolution_invariant.
Qed.

Lemma TrustRegion_init_radius `{Subsolvers} (p : Problem) (m : Models)
    (options : Options) (e_ub e_eq e_nub e_neq : vec) :
  let tr := TrustRegion_init p m options e_ub e_eq e_nub e_neq in
  resolution tr = radius_init options /\ radius tr = radius_init options.
Proof. split; reflexivity. Qed.

(** C8: when [radius_init >= radius_final > 0], the state built by the
    constructor satisfies [radius >= resolution >= radius_final], and so does
    the state after any sequence of calls to [update_radius] and
    [reduce_resolution], whatever their steps and ratios. *)
Theorem radius_invariant_always `{Subsolvers} (p : Problem) (m : Models)
    (options : Options) (e_ub e_eq e_nub e_neq : vec) (cs : list Call) :
  0 < radius_final options ->
  radius_final options <= radius_init options ->
  radius_invariant options
    (run_calls options (TrustRegion_init p m options e_ub e_eq e_nub e_neq) cs).
Proof.
  intros Hpos Hinit.
  apply run_calls_invariant; [assumption|].
  destruct (TrustRegion_init_radius p m options e_ub e_eq e_nub e_neq) as [Hr Hd].
  unfold radius_invariant. rewrite Hr, Hd. lra.
Qed.

(** ** The reduction ratio *)

(** C3: with [actual] the difference of the merit values at the best point
    and at the trial point, and [model] the difference the SQP model
    predicts, [get_reduction_ratio] returns [actual / |model|] when
    [|model| > tiny * |actual|], a division by a nonzero number whose result
    is below [1 / tiny] in magnitude, and returns [-1] otherwise. *)
Theorem get_reduction_ratio_spec (tr : TrustRegion) (step : vec)
    (fun_v : R) (cub_v ceq_v : vec) :
  let actual :=
    merit tr (x_best tr) (Some (fun_best tr)) (Some (cub_best tr)) (Some (ceq_best tr))
    - merit tr (vadd (x_best tr) step) (Some fun_v) (Some cub_v) (Some ceq_v) in
  let model :=
    merit tr (x_best tr) (Some 0) (Some (cub (models tr) (x_best tr)))
          (Some (ceq (models tr) (x_best tr)))
    - merit tr (vadd (x_best tr) step) (Some (sqp_fun tr step))
            (Some (sqp_cub tr step)) (Some (sqp_ceq tr step)) in
  let ratio := get_reduction_ratio tr step fun_v cub_v ceq_v in
  (tiny * Rabs actual < Rabs model ->
   Rabs model <> 0 /\ ratio = actual / Rabs model /\ Rabs ratio < / tiny)
  /\ (Rabs model <= tiny * Rabs actual -> ratio = -1)
  /\ (ratio = -1 \/ Rabs ratio < / tiny).
Proof.
  intros actual model ratio.
  pose proof tiny_pos as Ht.
  pose proof (Rabs_pos actual) as Ha.
  assert (Hguard : tiny * Rabs actual < Rabs model ->
                   Rabs model <> 0 /\ ratio = actual / Rabs model
                   /\ Rabs ratio < / tiny).
  { intros Hlt.
    assert (Hm : 0 < Rabs model) by nra.
    assert (Hr : ratio = actual / Rabs model).
    { subst ratio. unfold get_reduction_ratio. fold actual. fold model.
      destruct (Rlt_dec (tiny * Rabs actual) (Rabs model)); [reflexivity|contradiction]. }
    repeat split; [lra|assumption|].
    rewrite Hr. unfold Rdiv. rewrite Rabs_mult, Rabs_inv, Rabs_Rabsolu.
    apply (Rmult_lt_reg_r (Rabs model)); [assumption|].
    replace (Rabs actual * / Rabs model * Rabs model) with (Rabs actual)
      by (field; lra).
    apply (Rmult_lt_reg_l tiny); [assumption|].
    replace (tiny * (/ tiny * Rabs model)) with (Rabs model) by (field; lra).
    assumption. }
  assert (Hfail : Rabs model <= tiny * Rabs actual -> ratio = -1).
  { intros Hle. subst ratio. unfold get_reduction_ratio. fold actual. fold model.
    destruct (Rlt_dec (tiny * Rabs actual) (Rabs model)); [lra|reflexivity]. }
  split; [exact Hguard|]. split; [exact Hfail|].
  destruct (Rlt_dec (tiny * Rabs actual) (Rabs model)) as [Hlt|Hge].
  - right. apply Hguard, Hlt.
  - left. apply Hfail. lra.
Qed.

(** ** The penalty parameter *)

Lemma multipliers_norm_nonneg (tr : TrustRegion) : 0 <= multipliers_norm tr.
Proof. apply norm_nonneg. Qed.

(** The threshold is the norm of the multipliers, or the larger of that norm
    and [sqp_var / viol_diff]. *)
Lemma penalty_threshold_cases (tr : TrustRegion) (step : vec) :
  (tiny * Rabs (sqp_fun tr step) < Rabs (viol_diff tr step) ->
   penalty_threshold tr step
   = Rmax (multipliers_norm tr) (sqp_fun tr step / viol_diff tr step))
  /\ (Rabs (viol_diff tr step) <= tiny * Rabs (sqp_fun tr step) ->
      penalty_threshold tr step = multipliers_norm tr).
Proof.
  unfold penalty_threshold.
  destruct (Rlt_dec (tiny * Rabs (sqp_fun tr step)) (Rabs (viol_diff tr step)));
    split; intros; try (exfalso; lra).
  - apply py_max_Rmax.
  - reflexivity.
Qed.

Lemma penalty_threshold_nonneg (tr : TrustRegion) (step : vec) :
  0 <= penalty_threshold tr step.
Proof.
  pose proof (multipliers_norm_nonneg tr) as Hn.
  destruct (penalty_threshold_cases tr step) as [Ha Hb].
  destruct (Rlt_dec (tiny * Rabs (sqp_fun tr step)) (Rabs (viol_diff tr step))) as [H|H].
  - rewrite Ha by assumption.
    pose proof (Rmax_l (multipliers_norm tr) (sqp_fun tr step / viol_diff tr step)).
    lra.
  - rewrite Hb by lra. assumption.
Qed.

Lemma set_best_index_penalty (tr : TrustRegion) :
  penalty (set_best_index tr) = penalty tr.
Proof. reflexivity. Qed.

(** C5: the threshold of [increase_penalty] is the norm of the multipliers,
    raised to [sqp_var / viol_diff] when [|viol_diff| > tiny * |sqp_var|];
    the penalty becomes twice the threshold and the best index is selected
    again exactly when the penalty is at most 1.5 times the threshold, the
    state being left alone otherwise; the penalty never decreases; and the
    result is [true] exactly when the best index is the same as before. *)
Theorem increase_penalty_spec (tr : TrustRegion) (step : vec) :
  let threshold := penalty_threshold tr step in
  let tr' := fst (increase_penalty tr step) in
  (tiny * Rabs (sqp_fun tr step) < Rabs (viol_diff tr step) ->
   threshold = Rmax (multipliers_norm tr) (sqp_fun tr step / viol_diff tr step))
  /\ (Rabs (viol_diff tr step) <= tiny * Rabs (sqp_fun tr step) ->
      threshold = multipliers_norm tr)
  /\ (penalty tr <= 1.5 * threshold ->
      tr' = set_best_index (with_penalty tr (2 * threshold))
      /\ penalty tr' = 2 * threshold)
  /\ (1.5 * threshold < penalty tr -> tr' = tr)
  /\ penalty tr <= penalty tr'
  /\ (snd (increase_penalty tr step) = true <-> best_index tr' = best_index tr).
Proof.
  intros threshold tr'.
  pose proof (penalty_threshold_nonneg tr step) as Hthr. fold threshold in Hthr.
  destruct (penalty_threshold_cases tr step) as [Ha Hb].
  split; [exact Ha|]. split; [exact Hb|].
  subst tr'. unfold increase_penalty. fold threshold. cbv zeta.
  destruct (Rle_dec (penalty tr) (1.5 * threshold)) as [Hle|Hgt]; cbn [fst snd].
  - split; [intros _; split; [reflexivity|]|split; [intros Hc; exfalso; lra|split]].
    + rewrite set_best_index_penalty. reflexivity.
    + rewrite set_best_index_penalty. simpl. lra.
    + rewrite Nat.eqb_eq. split; intros Heq; symmetry; exact Heq.
  - split; [intros Hc; exfalso; lra|split; [reflexivity|split; [lra|]]].
    rewrite Nat.eqb_eq. split; reflexivity.
Qed.

(** ** Traces *)

Lemma fst_bind {A B : Type} (m : Traced A) (k : A -> Traced B) :
  fst (bind m k) = fst (k (fst m)).
Proof. destruct m as [a t]. unfold bind. simpl. destruct (k a). reflexivity. Qed.

Lemma snd_bind {A B : Type} (m : Traced A) (k : A -> Traced B) :
  snd (bind m k) = snd m ++ snd (k (fst m)).
Proof. destruct m as [a t]. unfold bind. simpl. destruct (k a). reflexivity. Qed.

Lemma solver_calls_app (t1 t2 : list Event) :
  solver_calls (t1 ++ t2) = solver_calls t1 ++ solver_calls t2.
Proof. apply filter_app. Qed.

Lemma warn_if_calls (cond : bool) (msg : string) :
  solver_calls (snd (warn_if cond msg)) = [].
Proof. destruct cond; reflexivity. Qed.

Lemma when_calls (cond : bool) (m : Traced unit) :
  solver_calls (snd m) = [] -> solver_calls (snd (when cond m)) = [].
Proof. intros Hm. destruct cond; [exact Hm|reflexivity]. Qed.

(** The checks made in debug mode call no solver. *)
Lemma debug_checks_calls (cond c1 c2 : bool) (msg1 msg2 : string) :
  solver_calls (snd (when cond (warn_if c1 msg1 ;;; warn_if c2 msg2))) = [].
Proof.
  apply when_calls.
  rewrite snd_bind, solver_calls_app, !warn_if_calls. reflexivity.
Qed.

Lemma type_in_bound_only (ty : string) :
  type_in ty ["unconstrained"; "bound-constrained"]%string = true
  <-> ty = "unconstrained"%string \/ ty = "bound-constrained"%string.
Proof.
  unfold type_in. simpl.
  rewrite !orb_true_iff, !String.eqb_eq. intuition discriminate.
Qed.

(** ** Steps *)

(** C4: [get_trust_region_step] calls the normal solver on the
    linearizations at the best point, the bounds translated by the best
    point and the radius [0.8 * radius]; with [n] the normal step, it then
    makes one more call, with the radius [sqrt (radius^2 - |n|^2)], the bounds
    shifted by [n] and the gradient [fun_grad x_best + hess_prod n]: to the
    bound tangential solver when the type of the problem is "unconstrained"
    or "bound-constrained", and otherwise to the constrained tangential
    solver, which also receives [aub], [max (bub - aub n) 0] and [aeq].  The
    two steps are returned. *)
Theorem get_trust_region_step_spec `{Subsolvers} (tr : TrustRegion) (options : Options) :
  let '(aub, bub, aeq, beq) := get_constraint_linearizations tr (x_best tr) in
  let xl := vsub (bounds_xl (pb tr)) (x_best tr) in
  let xu := vsub (bounds_xu (pb tr)) (x_best tr) in
  let dbg := debug options in
  let n := normal_byrd_omojokun aub bub aeq beq xl xu (0.8 * radius tr) dbg in
  let r := sqrt (radius tr ^ 2 - norm n ^ 2) in
  let bub' := map (fun c => Rmax c 0) (vsub bub (mat_vec aub n)) in
  let g := vadd (fun_grad (models tr) (x_best tr)) (lag_model_hess_prod tr n) in
  let hp := lag_model_hess_prod tr in
  let result := get_trust_region_step tr options in
  let bound_only :=
    pb_type (pb tr) = "unconstrained"%string
    \/ pb_type (pb tr) = "bound-constrained"%string in
  (bound_only ->
   solver_calls (snd result)
   = [CallNormal aub bub aeq beq xl xu (0.8 * radius tr) dbg;
      CallTangential g hp (vsub xl n) (vsub xu n) r dbg]
   /\ fst result
      = (n, tangential_byrd_omojokun g hp (vsub xl n) (vsub xu n) r dbg))
  /\ (~ bound_only ->
      solver_calls (snd result)
      = [CallNormal aub bub aeq beq xl xu (0.8 * radius tr) dbg;
         CallConstrainedTangential g hp (vsub xl n) (vsub xu n) aub bub' aeq r dbg]
      /\ fst result
         = (n, constrained_tangential_byrd_omojokun
                 g hp (vsub xl n) (vsub xu n) aub bub' aeq r dbg)).
Proof.
  unfold get_trust_region_step, get_constraint_linearizations. cbv zeta.
  rewrite norm_sqr.
  split; intros Hty.
  - apply type_in_bound_only in Hty.
    rewrite !snd_bind, !fst_bind, !solver_calls_app, !debug_checks_calls.
    cbn [fst snd]. rewrite Hty. cbn [fst snd]. split; reflexivity.
  - assert (Hf : type_in (pb_type (pb tr)) ["unconstrained"; "bound-constrained"]%string
                 = false).
    { destruct (type_in _ _) eqn:E; [|reflexivity].
      apply type_in_bound_only in E. contradiction. }
    rewrite !snd_bind, !fst_bind, !solver_calls_app, !debug_checks_calls.
    cbn [fst snd]. rewrite Hf. cbn [fst snd]. split; reflexivity.
Qed.

(** C9: [get_second_order_correction_step] makes a single call to a solver,
    the normal one, on the linearizations at the best point, the bounds
    translated by the best point and the radius [|step|^2]; it returns the
    step of the solver, whose norm is therefore at most [1.1 * |step|^2]
    when the solver keeps its step in the trust region. *)
Theorem get_second_order_correction_step_spec `{Subsolvers}
    (tr : TrustRegion) (step : vec) (options : Options) :
  normal_contract ->
  let '(aub, bub, aeq, beq) := get_constraint_linearizations tr (x_best tr) in
  let xl := vsub (bounds_xl (pb tr)) (x_best tr) in
  let xu := vsub (bounds_xu (pb tr)) (x_best tr) in
  let result := get_second_order_correction_step tr step options in
  solver_calls (snd result)
  = [CallNormal aub bub aeq beq xl xu (norm step ^ 2) (debug options)]
  /\ fst result
     = normal_byrd_omojokun aub bub aeq beq xl xu (norm step ^ 2) (debug options)
  /\ norm (fst result) <= 1.1 * norm step ^ 2.
Proof.
  intros Hcontract.
  unfold get_second_order_correction_step, get_constraint_linearizations. cbv zeta.
  rewrite norm_sqr.
  rewrite !snd_bind, !fst_bind, !solver_calls_app, !debug_checks_calls.
  cbn [fst snd].
  repeat split.
  pose proof (dot_self_nonneg step) as Hs.
  match goal with |- norm ?s <= _ => assert (Hn : norm s <= dot step step) end.
  { apply Hcontract, Hs. }
  lra.
Qed.

(** ** The best index *)

Lemma Rltb_true (a b : R) : a < b -> Rltb a b = true.
Proof. intros Hab. unfold Rltb. destruct (Rlt_dec a b); [reflexivity|contradiction]. Qed.

Lemma Rltb_false (a b : R) : b <= a -> Rltb a b = false.
Proof. intros Hab. unfold Rltb. destruct (Rlt_dec a b); [lra|reflexivity]. Qed.

Lemma Rleb_true (a b : R) : a <= b -> Rleb a b = true.
Proof. intros Hab. unfold Rleb. destruct (Rle_dec a b); [reflexivity|contradiction]. Qed.

Lemma Rleb_false (a b : R) : b < a -> Rleb a b = false.
Proof. intros Hab. unfold Rleb. destruct (Rle_dec a b); [lra|reflexivity]. Qed.

Lemma improves_merit (tol m_val r_val m_best r_best : R) :
  m_val < m_best -> improves tol m_val r_val m_best r_best = true.
Proof. intros Hm. unfold improves. now rewrite Rltb_true. Qed.

Lemma improves_tie (tol m_val r_val m_best r_best : R) :
  m_val < m_best + tol -> r_val < r_best ->
  improves tol m_val r_val m_best r_best = true.
Proof.
  intros Hm Hr. unfold improves.
  rewrite (Rltb_true m_val (m_best + tol)), (Rltb_true r_val r_best) by assumption.
  apply orb_true_r.
Qed.

Lemma improves_not (tol m_val r_val m_best r_best : R) :
  m_best <= m_val -> m_best + tol <= m_val \/ r_best <= r_val ->
  improves tol m_val r_val m_best r_best = false.
Proof.
  intros Hm [Ht|Hr]; unfold improves; rewrite (Rltb_false m_val m_best) by assumption.
  - now rewrite (Rltb_false m_val (m_best + tol)).
  - rewrite (Rltb_false r_val r_best) by assumption. apply andb_false_r.
Qed.

Lemma best_index_step_skip (tr : TrustRegion) (tol : R) (acc : nat * R * R) :
  best_index_step tr tol acc (best_index tr) = acc.
Proof.
  destruct acc as [[b m] r]. unfold best_index_step.
  now rewrite Nat.eqb_refl.
Qed.

Lemma best_index_step_skip_eq (tr : TrustRegion) (tol : R) (acc : nat * R * R)
    (k : nat) :
  k = best_index tr -> best_index_step tr tol acc k = acc.
Proof. intros ->. apply best_index_step_skip. Qed.

Lemma best_index_step_take (tr : TrustRegion) (tol : R) (b : nat) (m r : R) (k : nat) :
  k <> best_index tr ->
  improves tol (merit_at tr k) (resid_at tr k) m r = true ->
  best_index_step tr tol (b, m, r) k = (k, merit_at tr k, resid_at tr k).
Proof.
  intros Hk Hi. unfold best_index_step.
  apply Nat.eqb_neq in Hk. now rewrite Hk, Hi.
Qed.

Lemma best_index_step_keep (tr : TrustRegion) (tol : R) (b : nat) (m r : R) (k : nat) :
  improves tol (merit_at tr k) (resid_at tr k) m r = false ->
  best_index_step tr tol (b, m, r) k = (b, m, r).
Proof.
  intros Hi. unfold best_index_step.
  destruct (Nat.eqb k (best_index tr)); [reflexivity|]. now rewrite Hi.
Qed.

(** The loop leaves its variables alone when no other point passes the
    test. *)
Lemma best_index_fold_keep (tr : TrustRegion) (tol : R) (b : nat) (m r : R)
    (l : list nat) :
  (forall k, In k l -> k <> best_index tr ->
             improves tol (merit_at tr k) (resid_at tr k) m r = false) ->
  fold_left (best_index_step tr tol) l (b, m, r) = (b, m, r).
Proof.
  induction l as [|k l IH]; intros Hno; cbn [fold_left]; [reflexivity|].
  destruct (Nat.eq_dec k (best_index tr)) as [->|Hk].
  - rewrite best_index_step_skip. apply IH. intros j Hj. apply Hno. now right.
  - rewrite best_index_step_keep by (apply Hno; [now left|assumption]).
    apply IH. intros j Hj. apply Hno. now right.
Qed.

Lemma best_index_fold_consistent (tr : TrustRegion) (tol : R) (l : list nat)
    (acc : nat * R * R) :
  (forall k, In k l -> (k < npt (models tr))%nat) ->
  consistent tr acc ->
  consistent tr (fold_left (best_index_step tr tol) l acc).
Proof.
  revert acc. induction l as [|k l IH]; intros acc Hl Hacc; cbn [fold_left]; [assumption|].
  apply IH; [intros j Hj; apply Hl; now right|].
  destruct acc as [[b m] r]. unfold best_index_step.
  destruct (Nat.eqb k (best_index tr)); [assumption|].
  destruct (improves tol (merit_at tr k) (resid_at tr k) m r); [|assumption].
  repeat split. apply Hl. now left.
Qed.

(** Once the loop has left the old best index, it does not come back to
    it. *)
Lemma best_index_fold_away (tr : TrustRegion) (tol : R) (l : list nat)
    (b : nat) (m r : R) :
  b <> best_index tr ->
  fst (fst (fold_left (best_index_step tr tol) l (b, m, r))) <> best_index tr.
Proof.
  revert b m r.
  induction l as [|k l IH]; intros b m r Hb; cbn [fold_left]; [exact Hb|].
  unfold best_index_step at 2.
  destruct (Nat.eqb k (best_index tr)) eqn:E; [now apply IH|].
  destruct (improves tol (merit_at tr k) (resid_at tr k) m r); [|now apply IH].
  apply IH. now apply Nat.eqb_neq.
Qed.

(** The loop leaves the old best index as soon as a point passes the
    test. *)
Lemma best_index_fold_moves (tr : TrustRegion) (tol : R) (l : list nat) (m r : R) :
  (exists k, In k l /\ k <> best_index tr
             /\ improves tol (merit_at tr k) (resid_at tr k) m r = true) ->
  fst (fst (fold_left (best_index_step tr tol) l (best_index tr, m, r)))
  <> best_index tr.
Proof.
  induction l as [|k l IH]; intros (j & Hj & Hne & Hi); [destruct Hj|].
  cbn [fold_left]. unfold best_index_step at 2.
  destruct (Nat.eqb k (best_index tr)) eqn:E.
  - apply IH. exists j. repeat split; try assumption.
    destruct Hj as [->|Hj]; [|exact Hj].
    apply Nat.eqb_eq in E. contradiction.
  - destruct (improves tol (merit_at tr k) (resid_at tr k) m r) eqn:Ek.
    + apply best_index_fold_away. now apply Nat.eqb_neq.
    + apply IH. exists j. repeat split; try assumption.
      destruct Hj as [->|Hj]; [congruence|exact Hj].
Qed.

(** [set_best_index] keeps the best index exactly when no other
    interpolation point passes the test against it. *)
Lemma set_best_index_fixed_iff (tr : TrustRegion) :
  best_index (set_best_index tr) = best_index tr
  <-> (forall k, (k < npt (models tr))%nat -> k <> best_index tr ->
                 improves (best_index_tol tr) (merit_at tr k) (resid_at tr k)
                          (merit_at tr (best_index tr)) (resid_at tr (best_index tr))
                 = false).
Proof.
  unfold set_best_index, best_index_loop. cbn [best_index with_best_index].
  split.
  - intros Hfix k Hk Hne.
    destruct (improves _ _ _ _ _) eqn:E; [|reflexivity].
    exfalso. revert Hfix. apply best_index_fold_moves.
    exists k. repeat split; [apply in_seq; lia|assumption|exact E].
  - intros Hno. rewrite best_index_fold_keep; [reflexivity|].
    intros k Hk Hne. apply Hno; [apply in_seq in Hk; lia|assumption].
Qed.

(** The best index stays an index of the interpolation set. *)
Lemma set_best_index_range (tr : TrustRegion) :
  (best_index tr < npt (models tr))%nat ->
  (best_index (set_best_index tr) < npt (models (set_best_index tr)))%nat.
Proof.
  intros Hb. unfold set_best_index. simpl.
  pose proof (best_index_fold_consistent tr (best_index_tol tr)
                (seq 0 (npt (models tr)))
                (best_index tr, merit_at tr (best_index tr), resid_at tr (best_index tr)))
    as Hc.
  fold (best_index_loop tr) in Hc.
  destruct (best_index_loop tr) as [[b m] r]. simpl.
  apply Hc.
  - intros k Hk. apply in_seq in Hk. lia.
  - repeat split. assumption.
Qed.

(** When all the interpolation points have the same residual, the loop ends
    on a point of least merit value. *)
Lemma best_index_fold_min (tr : TrustRegion) (tol : R) (l : list nat)
    (acc : nat * R * R) :
  (forall j k, (j < npt (models tr))%nat -> (k < npt (models tr))%nat ->
               resid_at tr j = resid_at tr k) ->
  (forall k, In k l -> (k < npt (models tr))%nat) ->
  consistent tr acc ->
  let acc' := fold_left (best_index_step tr tol) l acc in
  snd (fst acc') <= snd (fst acc)
  /\ (forall k, In k l -> k <> best_index tr -> snd (fst acc') <= merit_at tr k).
Proof.
  intros Hres. revert acc.
  induction l as [|k l IH]; intros acc Hl Hacc; cbn [fold_left].
  - split; [lra|intros k []].
  - assert (Hk : (k < npt (models tr))%nat) by (apply Hl; now left).
    assert (Hl' : forall j, In j l -> (j < npt (models tr))%nat)
      by (intros j Hj; apply Hl; now right).
    assert (Hstep : consistent tr (best_index_step tr tol acc k)
                    /\ snd (fst (best_index_step tr tol acc k)) <= snd (fst acc)
                    /\ (k <> best_index tr ->
                        snd (fst (best_index_step tr tol acc k)) <= merit_at tr k)).
    { destruct acc as [[b m] r]. destruct Hacc as (Hb & Hm & Hr).
      unfold best_index_step.
      destruct (Nat.eqb k (best_index tr)) eqn:E.
      - apply Nat.eqb_eq in E. repeat split; simpl; try assumption; try lra.
        intros Hne. contradiction.
      - unfold improves.
        rewrite (Rltb_false (resid_at tr k) r), andb_false_r, orb_false_r
          by (rewrite Hr, (Hres k b) by assumption; lra).
        unfold Rltb. destruct (Rlt_dec (merit_at tr k) m) as [Hlt|Hge]; simpl.
        + repeat split; try assumption; lra.
        + repeat split; try assumption; lra. }
    destruct Hstep as (Hc & Hle & Hmk).
    destruct (IH (best_index_step tr tol acc k) Hl' Hc) as [Hle' Hall].
    split; [lra|].
    intros j [->|Hj] Hne.
    + specialize (Hmk Hne). lra.
    + apply Hall; assumption.
Qed.

Lemma merit_at_with_best_index (tr : TrustRegion) (b k : nat) :
  merit_at (with_best_index tr b) k = merit_at tr k.
Proof. reflexivity. Qed.

Lemma resid_at_with_best_index (tr : TrustRegion) (b k : nat) :
  resid_at (with_best_index tr b) k = resid_at tr k.
Proof. reflexivity. Qed.

(** C10, as the code has it: when the best index is an index of the
    interpolation set and all the interpolation points have the same
    residual, a second call to [set_best_index] right after a first one
    changes nothing. *)
Theorem set_best_index_idempotent (tr : TrustRegion) :
  (best_index tr < npt (models tr))%nat ->
  (forall j k, (j < npt (models tr))%nat -> (k < npt (models tr))%nat ->
               resid_at tr j = resid_at tr k) ->
  set_best_index (set_best_index tr) = set_best_index tr.
Proof.
  intros Hb Hres.
  assert (Hseq : forall k, In k (seq 0 (npt (models tr))) -> (k < npt (models tr))%nat)
    by (intros k Hk; apply in_seq in Hk; lia).
  assert (Hstart : consistent tr (best_index tr, merit_at tr (best_index tr),
                                  resid_at tr (best_index tr)))
    by (repeat split; assumption).
  pose proof (best_index_fold_consistent tr (best_index_tol tr) _ _ Hseq Hstart) as Hc.
  pose proof (best_index_fold_min tr (best_index_tol tr) _ _ Hres Hseq Hstart) as Hmin.
  cbv zeta in Hmin. fold (best_index_loop tr) in Hc, Hmin.
  unfold set_best_index at 2 3.
  destruct (best_index_loop tr) as [[b1 m1] r1] eqn:Hloop. simpl in Hmin. simpl.
  destruct Hc as (Hb1 & Hm1 & Hr1). destruct Hmin as [Hle Hall].
  unfold set_best_index, best_index_loop. simpl.
  rewrite best_index_fold_keep; [reflexivity|].
  intros k Hk Hne. simpl in Hne.
  rewrite merit_at_with_best_index, resid_at_with_best_index.
  apply Hseq in Hk.
  apply improves_not.
  - rewrite merit_at_with_best_index, <- Hm1.
    destruct (Nat.eq_dec k (best_index tr)) as [->|Hkb].
    + exact Hle.
    + apply Hall; [apply in_seq; lia|assumption].
  - right. rewrite resid_at_with_best_index, (Hres b1 k) by assumption. lra.
Qed.

(** ** Evaluation on the examples *)

Lemma tiny_small : 4 * tiny < 1.
Proof.
  unfold tiny.
  assert (H4 : 4 < 2 ^ 1022).
  { change 1022%nat with (3 + 1019)%nat. rewrite pow_add.
    assert (H' : 1 <= 2 ^ 1019) by (apply pow_R1_Rle; lra).
    simpl (2 ^ 3). nra. }
  assert (Hi : / 2 ^ 1022 < / 4) by (apply Rinv_lt_contravar; lra).
  lra.
Qed.

Lemma eps_small : 30 * eps < 1.
Proof.
  unfold eps.
  assert (H : 32 < 2 ^ 52) by (simpl; lra).
  assert (Hi : / 2 ^ 52 < / 32) by (apply Rinv_lt_contravar; lra).
  lra.
Qed.

Lemma Rabs_nonneg_eq (a : R) : 0 <= a -> Rabs a = a.
Proof. intros Ha. apply Rabs_right. lra. Qed.

Lemma Rabs_neg_eq (a : R) : a <= 0 -> Rabs a = - a.
Proof.
  intros Ha. destruct (Req_dec a 0) as [->|Hne].
  - rewrite Rabs_R0. lra.
  - apply Rabs_left. lra.
Qed.

(** Evaluation of the comparisons, maxima, minima and absolute values of a
    goal whose operands are settled by linear arithmetic. *)
Ltac eval_R :=
  repeat match goal with
  | |- context [Rmax ?a ?b] =>
      first [rewrite (Rmax_left a b) by lra | rewrite (Rmax_right a b) by lra]
  | |- context [Rmin ?a ?b] =>
      first [rewrite (Rmin_left a b) by lra | rewrite (Rmin_right a b) by lra]
  | |- context [Rabs ?a] =>
      first [rewrite (Rabs_nonneg_eq a) by lra | rewrite (Rabs_neg_eq a) by lra]
  | |- context [py_max ?a ?b] => rewrite (py_max_Rmax a b)
  | |- context [py_min ?a ?b] => rewrite (py_min_Rmin a b)
  | |- context [Rltb ?a ?b] =>
      first [rewrite (Rltb_true a b) by lra | rewrite (Rltb_false a b) by lra]
  | |- context [Rleb ?a ?b] =>
      first [rewrite (Rleb_true a b) by lra | rewrite (Rleb_false a b) by lra]
  end.

Lemma norm_eval (v : vec) (c : R) : 0 <= c -> dot v v = c * c -> norm v = c.
Proof. intros Hc Hd. unfold norm. rewrite Hd. now apply sqrt_square. Qed.

Section Demo.

(** A state on [demo_problem] and [demo_models] with the penalty [1 + eps]. *)
Variable tr : TrustRegion.
Hypothesis Hp : pb tr = demo_problem.
Hypothesis Hm : models tr = demo_models.
Hypothesis Hmu : penalty tr = 1 + eps.

Lemma demo_resid_at :
  resid_at tr 0 = 0 /\ resid_at tr 1 = 1 /\ resid_at tr 2 = 0.
Proof.
  unfold resid_at, point. rewrite Hp, Hm. simpl.
  unfold max_violation, violation_of, vpos, vabs, vsub, vadd, mat_vec, dot, vsum. simpl.
  repeat split; eval_R; reflexivity.
Qed.

Lemma demo_merit_at :
  merit_at tr 0 = 0 /\ merit_at tr 1 = - eps /\ merit_at tr 2 = 1.
Proof.
  pose proof eps_pos as He.
  unfold merit_at, merit, violation, violation_of, point. rewrite Hp, Hm, Hmu. simpl.
  unfold vpos, vabs, vsub, vadd, mat_vec, dot, vsum. simpl.
  destruct (Rlt_dec 0 (1 + eps)) as [_|Hn]; [|exfalso; lra].
  eval_R.
  repeat split.
  - rewrite (norm_eval _ 0); [lra|lra|unfold dot, vsum; simpl; lra].
  - rewrite (norm_eval _ 1); [lra|lra|unfold dot, vsum; simpl; lra].
  - rewrite (norm_eval _ 0); [lra|lra|unfold dot, vsum; simpl; lra].
Qed.

Lemma demo_tol : (best_index tr < 3)%nat -> best_index_tol tr = 30 * eps.
Proof.
  intros Hb. pose proof eps_pos as He. pose proof eps_small as Hs.
  destruct demo_merit_at as (M0 & M1 & M2).
  unfold best_index_tol.
  replace (INR (xpt_shape_max (models tr))) with 3
    by (rewrite Hm; unfold xpt_shape_max, npt; simpl; lra).
  destruct (best_index tr) as [|[|[|b]]]; [rewrite M0|rewrite M1|rewrite M2|lia];
    eval_R; lra.
Qed.

(** From the feasible point 0, a call moves to the point 1, whose merit
    value is lower. *)
Lemma demo_call_from_0 :
  best_index tr = 0%nat -> set_best_index tr = with_best_index tr 1.
Proof.
  intros Hb. pose proof eps_pos as He. pose proof eps_small as Hs.
  destruct demo_merit_at as (M0 & M1 & M2).
  destruct demo_resid_at as (R0 & R1 & R2).
  unfold set_best_index, best_index_loop.
  rewrite demo_tol by lia. rewrite Hm at 1. rewrite Hb at 1 2 3.
  change (seq 0 (npt demo_models)) with [0; 1; 2]%nat.
  cbn [fold_left].
  rewrite (best_index_step_skip_eq _ _ _ 0%nat) by (symmetry; exact Hb).
  rewrite (best_index_step_take _ _ _ _ _ 1%nat);
    [|rewrite Hb; discriminate|rewrite M0, M1; apply improves_merit; lra].
  rewrite (best_index_step_keep _ _ _ _ _ 2%nat)
    by (rewrite M1, M2, R1, R2; apply improves_not; lra).
  reflexivity.
Qed.

(** From the point 1, a call moves to the point 0: its merit value is within
    the tolerance and its residual is smaller. *)
Lemma demo_call_from_1 :
  best_index tr = 1%nat -> set_best_index tr = with_best_index tr 0.
Proof.
  intros Hb. pose proof eps_pos as He. pose proof eps_small as Hs.
  destruct demo_merit_at as (M0 & M1 & M2).
  destruct demo_resid_at as (R0 & R1 & R2).
  unfold set_best_index, best_index_loop.
  rewrite demo_tol by lia. rewrite Hm at 1. rewrite Hb at 1 2 3.
  change (seq 0 (npt demo_models)) with [0; 1; 2]%nat.
  cbn [fold_left].
  rewrite (best_index_step_take _ _ _ _ _ 0%nat);
    [|rewrite Hb; discriminate|rewrite M0, M1, R0, R1; apply improves_tie; lra].
  rewrite (best_index_step_skip_eq _ _ _ 1%nat) by (symmetry; exact Hb).
  rewrite (best_index_step_keep _ _ _ _ _ 2%nat)
    by (rewrite M0, M2, R0, R2; apply improves_not; lra).
  reflexivity.
Qed.

(** The penalty that the constructor computes on these models. *)
Lemma demo_low_penalty : get_low_penalty tr = Finite (1 + eps).
Proof.
  pose proof eps_pos as He. pose proof eps_small as Hs.
  pose proof tiny_pos as Ht. pose proof tiny_small as Hts.
  unfold get_low_penalty, r_val_row, point. rewrite Hp, Hm.
  unfold npt. simpl.
  unfold vsub, vadd, vneg, mat_vec, dot, vsum. simpl.
  eval_R. simpl. eval_R.
  destruct (Rlt_dec (tiny * (1 - (-1 - 2 * eps))) (1 - -1)) as [_|Hn];
    [|exfalso; nra].
  f_equal. lra.
Qed.

End Demo.

(** C10 fails as stated: on [demo_state] the first call selects the point 1
    and the second call, made right after it, selects the point 0. *)
Lemma set_best_index_not_idempotent :
  best_index (set_best_index demo_state) = 1%nat
  /\ best_index (set_best_index (set_best_index demo_state)) = 0%nat
  /\ set_best_index (set_best_index demo_state) <> set_best_index demo_state.
Proof.
  rewrite (demo_call_from_0 demo_state) by reflexivity.
  rewrite (demo_call_from_1 (with_best_index demo_state 1)) by reflexivity.
  repeat split. intros Habs.
  apply (f_equal best_index) in Habs. discriminate Habs.
Qed.

(** ** The Lagrange multipliers *)

(** When the Jacobian of the active constraints has no entry,
    [set_multipliers] assigns nothing. *)
Lemma set_multipliers_empty `{Subsolvers} (tr : TrustRegion) :
  mat_size (pb_n (pb tr)) (c_jac tr) = 0%nat -> set_multipliers tr = tr.
Proof. intros Hsize. unfold set_multipliers. now rewrite Hsize. Qed.

Lemma set_multipliers_frame `{Subsolvers} (tr : TrustRegion) :
  pb (set_multipliers tr) = pb tr
  /\ models (set_multipliers tr) = models tr
  /\ best_index (set_multipliers tr) = best_index tr
  /\ penalty (set_multipliers tr) = penalty tr.
Proof.
  unfold set_multipliers.
  destruct (Nat.ltb 0 (mat_size (pb_n (pb tr)) (c_jac tr))); repeat split.
Qed.

(** No constraint of [slack_problem] is active at an interpolation point of
    [slack_models]. *)
Lemma slack_inactive (tr : TrustRegion) :
  pb tr = slack_problem -> models tr = slack_models -> (best_index tr < 3)%nat ->
  incl_xl tr = [false] /\ incl_xu tr = [false]
  /\ incl_linear tr = [false] /\ incl_nonlinear tr = [false].
Proof.
  intros Hp Hm Hb.
  unfold incl_xl, incl_xu, incl_linear, incl_nonlinear, cub_best, x_best, point.
  rewrite Hp, Hm.
  destruct (best_index tr) as [|[|[|b]]]; [| | |lia];
    simpl; unfold dot, vsum; simpl; eval_R; repeat split.
Qed.

Lemma slack_c_jac (tr : TrustRegion) :
  pb tr = slack_problem -> models tr = slack_models -> (best_index tr < 3)%nat ->
  c_jac tr = [].
Proof.
  intros Hp Hm Hb.
  destruct (slack_inactive tr Hp Hm Hb) as (Hxl & Hxu & Hl & Hn).
  unfold c_jac. rewrite Hxl, Hxu, Hl, Hn, Hp, Hm. reflexivity.
Qed.

Lemma xl_lm_zero (rows m p : nat) :
  (p < m)%nat -> (p < rows)%nat -> nth_error (xl_lm rows m) p = Some (Some 0).
Proof.
  intros Hm Hr. unfold xl_lm.
  rewrite nth_error_map, nth_error_seq.
  apply Nat.ltb_lt in Hr. rewrite Hr. simpl.
  apply Nat.ltb_lt in Hm. now rewrite Hm.
Qed.

Lemma xl_lm_length (rows m : nat) : length (xl_lm rows m) = rows.
Proof. unfold xl_lm. now rewrite length_map, length_seq. Qed.

Lemma slice_In (i j : nat) (l : vec) (x : R) :
  In x (slice i j l) -> exists p, (i <= p < j)%nat /\ nth_error l p = Some x.
Proof.
  unfold slice. intros Hin.
  apply In_nth_error in Hin. destruct Hin as [q Hq].
  rewrite nth_error_firstn in Hq.
  destruct (Nat.ltb q (j - i)) eqn:E; [|discriminate].
  apply Nat.ltb_lt in E. rewrite nth_error_skipn in Hq.
  exists (i + q)%nat. split; [lia|exact Hq].
Qed.

Lemma fill_masked_nonneg (mask : list bool) (vals a : vec) :
  (forall x, In x vals -> 0 <= x) ->
  Forall (fun x => 0 <= x) (fill_masked mask vals a).
Proof.
  revert mask vals.
  induction a as [|a0 a IH]; intros mask vals Hvals; simpl; [constructor|].
  destruct mask as [|[|] mask].
  - constructor; [lra|now apply IH].
  - destruct vals as [|v vals].
    + constructor; [lra|now apply IH].
    + constructor; [apply Hvals; now left|].
      apply IH. intros x Hx. apply Hvals. now right.
  - constructor; [lra|now apply IH].
Qed.

Lemma fill_masked_inactive (mask : list bool) (vals a : vec) (i : nat) :
  nth i mask false = false -> nth i (fill_masked mask vals a) 0 = 0.
Proof.
  revert mask vals i.
  induction a as [|a0 a IH]; intros mask vals i Hi; simpl.
  - now destruct i.
  - destruct mask as [|[|] mask].
    + destruct i as [|i]; [reflexivity|]. simpl. apply IH. now destruct i.
    + destruct i as [|i]; [discriminate Hi|].
      destruct vals as [|v vals]; simpl; apply IH; exact Hi.
    + destruct i as [|i]; [reflexivity|]. simpl. apply IH. exact Hi.
Qed.

(** When the Jacobian of the active constraints has entries and
    [lsq_linear] respects its bounds, the multipliers of the inequality
    constraints are nonnegative after [set_multipliers], and zero on the
    constraints that are inactive at the best point. *)
Lemma set_multipliers_active `{Subsolvers} (tr : TrustRegion) :
  bvls_contract ->
  (0 < mat_size (pb_n (pb tr)) (c_jac tr))%nat ->
  let tr' := set_multipliers tr in
  Forall (fun x => 0 <= x) (lm_linear_ub tr')
  /\ Forall (fun x => 0 <= x) (lm_nonlinear_ub tr')
  /\ (forall i, nth i (incl_linear tr) false = false -> nth i (lm_linear_ub tr') 0 = 0)
  /\ (forall i, nth i (incl_nonlinear tr) false = false ->
                nth i (lm_nonlinear_ub tr') 0 = 0).
Proof.
  intros Hbvls Hsize. cbv zeta. unfold set_multipliers.
  apply Nat.ltb_lt in Hsize. rewrite Hsize. cbn [lm_linear_ub lm_nonlinear_ub with_multipliers].
  set (m := (count_nonzero (incl_xl tr) + count_nonzero (incl_xu tr)
             + count_nonzero (incl_linear tr) + count_nonzero (incl_nonlinear tr))%nat).
  set (lb := xl_lm (length (c_jac tr)) m).
  set (res_x := lsq_linear (transpose (pb_n (pb tr)) (c_jac tr))
                           (vneg (fun_grad (models tr) (x_best tr))) lb).
  destruct (Hbvls (transpose (pb_n (pb tr)) (c_jac tr))
                  (vneg (fun_grad (models tr) (x_best tr))) lb) as [Hlen Hlow].
  fold res_x in Hlen, Hlow.
  assert (Hpos : forall p x, (p < m)%nat -> nth_error res_x p = Some x -> 0 <= x).
  { intros p x Hp Hx. apply (Hlow p 0 x); [|exact Hx].
    apply xl_lm_zero; [exact Hp|].
    assert (Hsome : nth_error res_x p <> None) by (rewrite Hx; discriminate).
    apply nth_error_Some in Hsome.
    unfold lb in Hlen. rewrite xl_lm_length in Hlen. lia. }
  repeat split.
  - apply fill_masked_nonneg. intros x Hx.
    apply slice_In in Hx. destruct Hx as (p & Hp & Hx).
    apply (Hpos p x); [unfold m; lia|exact Hx].
  - apply fill_masked_nonneg. intros x Hx.
    apply slice_In in Hx. destruct Hx as (p & Hp & Hx).
    apply (Hpos p x); [unfold m; lia|exact Hx].
  - intros i Hi. now apply fill_masked_inactive.
  - intros i Hi. now apply fill_masked_inactive.
Qed.

(** ** The constructor *)

(** The state on which the constructor calls [set_multipliers]: the arrays of
    the multipliers are as [np.empty] left them. *)
Lemma TrustRegion_init_multipliers `{Subsolvers} (p : Problem) (m : Models)
    (options : Options) (e_ub e_eq e_nub e_neq : vec) :
  exists tr,
    TrustRegion_init p m options e_ub e_eq e_nub e_neq
    = assign_radius (set_resolution (set_multipliers tr) (radius_init options))
                    (radius_init options)
    /\ pb tr = p /\ models tr = m
    /\ ((0 < npt m)%nat -> (best_index tr < npt m)%nat)
    /\ lm_linear_ub tr = e_ub /\ lm_linear_eq tr = e_eq
    /\ lm_nonlinear_ub tr = e_nub /\ lm_nonlinear_eq tr = e_neq.
Proof.
  unfold TrustRegion_init.
  match goal with
  | |- context [set_multipliers (set_best_index ?t)] =>
      exists (set_best_index t);
      assert (Hp : pb t = p /\ models t = m /\ best_index t = 0%nat
                   /\ lm_linear_ub t = e_ub /\ lm_linear_eq t = e_eq
                   /\ lm_nonlinear_ub t = e_nub /\ lm_nonlinear_eq t = e_neq)
        by (destruct (get_low_penalty _); repeat split);
      destruct Hp as (Hp & Hm & Hb & H1 & H2 & H3 & H4);
      assert (Hrange : (0 < npt m)%nat ->
                       (best_index (set_best_index t) < npt m)%nat)
        by (intros Hnpt; pose proof (set_best_index_range t) as Hr;
            change (models (set_best_index t)) with (models t) in Hr;
            rewrite Hb, Hm in Hr; exact (Hr Hnpt))
  end.
  split; [reflexivity|].
  split; [exact Hp|]. split; [exact Hm|].
  split; [exact Hrange|repeat split; assumption].
Qed.

(** The constructor on [slack_problem] and [slack_models]: the call to
    [set_multipliers] finds no active constraint and assigns nothing. *)
Lemma slack_constructor `{Subsolvers} (options : Options) (e_ub e_eq e_nub e_neq : vec) :
  let tr := TrustRegion_init slack_problem slack_models options e_ub e_eq e_nub e_neq in
  c_jac tr = []
  /\ incl_linear tr = [false] /\ incl_nonlinear tr = [false]
  /\ lm_linear_ub tr = e_ub /\ lm_nonlinear_ub tr = e_nub.
Proof.
  destruct (TrustRegion_init_multipliers slack_problem slack_models options
              e_ub e_eq e_nub e_neq)
    as (tr0 & -> & Hp & Hm & Hb & Hub & _ & Hnub & _).
  assert (Hb' : (best_index tr0 < 3)%nat) by (apply Hb; unfold npt; simpl; lia).
  pose proof (slack_c_jac tr0 Hp Hm Hb') as Hjac.
  destruct (slack_inactive tr0 Hp Hm Hb') as (_ & _ & Hl & Hn).
  assert (Hsize : mat_size (pb_n (pb tr0)) (c_jac tr0) = 0%nat)
    by (rewrite Hjac; reflexivity).
  rewrite (set_multipliers_empty tr0 Hsize).
  cbv zeta. repeat split; assumption.
Qed.

(** [_get_low_penalty] reads the problem and the models only. *)
Lemma get_low_penalty_frame (tr1 tr2 : TrustRegion) :
  pb tr1 = pb tr2 -> models tr1 = models tr2 ->
  get_low_penalty tr1 = get_low_penalty tr2.
Proof.
  intros Hp Hm. unfold get_low_penalty, r_val_row. now rewrite Hp, Hm.
Qed.

(** The state on which the constructor calls [set_best_index]. *)
Lemma TrustRegion_init_best_index `{Subsolvers} (p : Problem) (m : Models)
    (options : Options) (e_ub e_eq e_nub e_neq : vec) :
  exists tr,
    TrustRegion_init p m options e_ub e_eq e_nub e_neq
    = assign_radius
        (set_resolution (set_multipliers (set_best_index tr)) (radius_init options))
        (radius_init options)
    /\ pb tr = p /\ models tr = m /\ best_index tr = 0%nat
    /\ penalty tr = match get_low_penalty tr with Finite low => low | PosInf => 0 end.
Proof.
  unfold TrustRegion_init.
  match goal with
  | |- context [set_multipliers (set_best_index ?t)] => exists t
  end.
  split; [reflexivity|].
  match goal with
  | |- context [with_best_index (match get_low_penalty ?t0 with _ => _ end) _] =>
      set (tr0 := t0)
  end.
  destruct (get_low_penalty tr0) as [low0|] eqn:E.
  - repeat split.
    rewrite (get_low_penalty_frame _ tr0), E by reflexivity. reflexivity.
  - repeat split.
    rewrite (get_low_penalty_frame _ tr0), E by reflexivity. reflexivity.
Qed.

(** The run of C10 from the constructor: on [demo_problem] and [demo_models]
    the constructor ends at the point 1, and a call to [set_best_index] on
    the state it returns moves to the point 0. *)
Lemma set_best_index_after_constructor `{Subsolvers}
    (options : Options) (e_ub e_eq e_nub e_neq : vec) :
  let tr := TrustRegion_init demo_problem demo_models options e_ub e_eq e_nub e_neq in
  penalty tr = 1 + eps
  /\ best_index tr = 1%nat
  /\ best_index (set_best_index tr) = 0%nat.
Proof.
  destruct (TrustRegion_init_best_index demo_problem demo_models options
              e_ub e_eq e_nub e_neq)
    as (t & -> & Hp & Hm & Hb & Hlow).
  assert (Hmu : penalty t = 1 + eps)
    by (rewrite Hlow, (demo_low_penalty t Hp Hm); reflexivity).
  rewrite (demo_call_from_0 t Hp Hm Hmu Hb).
  destruct (set_multipliers_frame (with_best_index t 1)) as (Fp & Fm & Fb & Fmu).
  cbv zeta.
  set (tr := assign_radius
               (set_resolution (set_multipliers (with_best_index t 1))
                               (radius_init options))
               (radius_init options)).
  assert (Tp : pb tr = demo_problem) by (exact (eq_trans Fp Hp)).
  assert (Tm : models tr = demo_models) by (exact (eq_trans Fm Hm)).
  assert (Tmu : penalty tr = 1 + eps) by (exact (eq_trans Fmu Hmu)).
  assert (Tb : best_index tr = 1%nat) by (exact Fb).
  rewrite (demo_call_from_1 tr Tp Tm Tmu Tb).
  repeat split; assumption.
Qed.

(** C1 fails on the code: the constructor, given [slack_problem] and
    [slack_models], reaches [set_multipliers] with a Jacobian of the active
    constraints that has no entry, and the multipliers keep the values that
    [np.empty] left in the arrays (here 7 and -3) instead of zero. *)
Theorem set_multipliers_empty_jacobian (S : Subsolvers) :
  let tr := TrustRegion_init slack_problem slack_models demo_options [7] [] [-3] [] in
  mat_size (pb_n (pb tr)) (c_jac tr) = 0%nat
  /\ lm_linear_ub tr = [7]
  /\ lm_nonlinear_ub tr = [-3].
Proof.
  destruct (slack_constructor demo_options [7] [] [-3] []) as (Hjac & _ & _ & Hub & Hnub).
  cbv zeta. rewrite Hjac. repeat split; assumption.
Qed.

(** C2 fails on the code: after the call the constructor makes, the
    multiplier of the nonlinear inequality constraint of [slack_problem],
    which is inactive at the best point, is the negative number that
    [np.empty] left; and a call on [stale_state], where no constraint is
    active either, leaves the multipliers 3 and 2 of an earlier call. *)
Theorem set_multipliers_inactive_not_reset (S : Subsolvers) :
  (let tr := TrustRegion_init slack_problem slack_models demo_options [7] [] [-3] [] in
   incl_nonlinear tr = [false] /\ lm_nonlinear_ub tr = [-3])
  /\ (let tr := set_multipliers stale_state in
      incl_linear tr = [false] /\ incl_nonlinear tr = [false]
      /\ lm_linear_ub tr = [3] /\ lm_nonlinear_ub tr = [2]).
Proof.
  split.
  - destruct (slack_constructor demo_options [7] [] [-3] []) as (_ & _ & Hn & _ & Hnub).
    cbv zeta. split; assumption.
  - assert (Hjac : c_jac stale_state = [])
      by (apply slack_c_jac; [reflexivity|reflexivity|simpl; lia]).
    assert (Hsize : mat_size (pb_n (pb stale_state)) (c_jac stale_state) = 0%nat)
      by (rewrite Hjac; reflexivity).
    rewrite (set_multipliers_empty stale_state Hsize). cbv zeta.
    destruct (slack_inactive stale_state) as (_ & _ & Hl & Hn);
      [reflexivity|reflexivity|simpl; lia|].
    repeat split; assumption.
Qed.

(** ** Instances of the theorems *)

Lemma norm_zeros_like (v : vec) : norm (zeros_like v) = 0.
Proof.
  unfold norm. replace (dot (zeros_like v) (zeros_like v)) with 0.
  - apply sqrt_0.
  - unfold dot, vsum, zeros_like. induction v as [|a v IH]; simpl; lra.
Qed.

Lemma zero_solvers_contract : @normal_contract zero_solvers.
Proof.
  intros aub bub aeq beq xl xu radius dbg Hr. simpl.
  rewrite norm_zeros_like. exact Hr.
Qed.

Lemma zero_solvers_bvls : @bvls_contract zero_solvers.
Proof.
  intros a b lb.
  change (lsq_linear a b lb)
    with (map (fun l : lower_bound => match l with Some r => r | None => 0 end) lb).
  split; [apply length_map|].
  intros i l x Hl Hx. rewrite nth_error_map, Hl in Hx. simpl in Hx.
  injection Hx as <-. lra.
Qed.

(** The invariant of the radius on a run that starts with the constructor. *)
Lemma radius_invariant_always_witness :
  0 < radius_final demo_options
  /\ radius_final demo_options <= radius_init demo_options
  /\ radius_invariant demo_options
       (run_calls demo_options
          (@TrustRegion_init zero_solvers slack_problem slack_models demo_options
             [7] [] [-3] [])
          [UpdateRadius [1] 0.5; ReduceResolution; UpdateRadius [3] 0.9]).
Proof.
  assert (Hpos : 0 < radius_final demo_options) by (simpl; lra).
  assert (Hle : radius_final demo_options <= radius_init demo_options) by (simpl; lra).
  split; [exact Hpos|]. split; [exact Hle|].
  exact (@radius_invariant_always zero_solvers slack_problem slack_models demo_options
           [7] [] [-3] []
           [UpdateRadius [1] 0.5; ReduceResolution; UpdateRadius [3] 0.9] Hpos Hle).
Defined.

(** The second-order correction on [demo_state] for the step 2, with the
    solvers that answer zero. *)
Lemma get_second_order_correction_step_witness :
  @normal_contract zero_solvers
  /\ norm (fst (@get_second_order_correction_step zero_solvers demo_state [2]
                  demo_options))
     <= 1.1 * norm [2] ^ 2.
Proof.
  split; [exact zero_solvers_contract|].
  pose proof (@get_second_order_correction_step_spec zero_solvers demo_state [2]
                demo_options zero_solvers_contract) as Hspec.
  unfold get_constraint_linearizations in Hspec. cbv zeta in Hspec.
  exact (proj2 (proj2 Hspec)).
Defined.

Lemma slack_resid_at (b k : nat) :
  (k < 3)%nat -> resid_at (with_best_index stale_state b) k = 0.
Proof.
  intros Hk. unfold resid_at, point. simpl.
  unfold max_violation, violation_of, vpos, vabs, vsub, vadd, mat_vec, dot, vsum.
  destruct k as [|[|[|k]]]; [| | |lia]; simpl; eval_R; reflexivity.
Qed.

(** [stale_state]: every interpolation point is feasible, so that all the
    residuals are zero. *)
Lemma set_best_index_idempotent_witness :
  (best_index stale_state < npt (models stale_state))%nat
  /\ (forall j k, (j < npt (models stale_state))%nat ->
                  (k < npt (models stale_state))%nat ->
                  resid_at stale_state j = resid_at stale_state k)
  /\ set_best_index (set_best_index stale_state) = set_best_index stale_state.
Proof.
  assert (Hb : (best_index stale_state < npt (models stale_state))%nat)
    by (unfold npt; simpl; lia).
  assert (Hres : forall j k, (j < npt (models stale_state))%nat ->
                             (k < npt (models stale_state))%nat ->
                             resid_at stale_state j = resid_at stale_state k).
  { intros j k Hj Hk.
    transitivity 0; [exact (slack_resid_at 0 j Hj)|].
    symmetry. exact (slack_resid_at 0 k Hk). }
  split; [exact Hb|]. split; [exact Hres|].
  exact (set_best_index_idempotent stale_state Hb Hres).
Defined.

(** ** Runs on the examples *)

Lemma norm_singleton (a : R) : 0 <= a -> norm [a] = a.
Proof.
  intros Ha. unfold norm, dot, vsum. simpl.
  rewrite Rplus_0_r. now apply sqrt_square.
Qed.

Lemma sqrt2_above : 1.4 < sqrt 2.
Proof.
  rewrite <- (sqrt_square 1.4) by lra.
  apply sqrt_lt_1_alt. lra.
Qed.

(** A poor ratio halves the radius, which the setter brings back to the
    resolution. *)
Example update_radius_poor_ratio :
  radius (update_radius demo_state [3] 0.05) = 1.
Proof.
  unfold update_radius.
  destruct (Rle_dec 0.05 0.1) as [_|Hn]; [|exfalso; lra].
  unfold set_radius. simpl.
  destruct (Rle_dec (1 * 0.5) (1.4 * 1)) as [_|Hn]; [reflexivity|exfalso; lra].
Qed.

(** A good ratio and a long step multiply the radius by [sqrt 2]. *)
Example update_radius_good_ratio :
  radius (update_radius demo_state [3] 0.9) = sqrt 2.
Proof.
  pose proof sqrt2_above as Hs.
  unfold update_radius.
  destruct (Rle_dec 0.9 0.1) as [Hn|_]; [exfalso; lra|].
  destruct (Rle_dec 0.9 0.7) as [Hn|_]; [exfalso; lra|].
  rewrite norm_singleton by lra.
  rewrite py_min_Rmin, py_max_Rmax. cbn [radius demo_state].
  rewrite (Rmax_right (0.5 * 1) (2 * 3)) by lra.
  rewrite (Rmin_left (sqrt 2 * 1) (2 * 3)).
  - unfold set_radius. simpl.
    destruct (Rle_dec (sqrt 2 * 1) (1.4 * 1)) as [Hn|_]; [exfalso; lra|].
    simpl. lra.
  - assert (Hu : sqrt 2 <= 2).
    { rewrite <- (sqrt_square 2) at 2 by lra. apply sqrt_le_1_alt. lra. }
    lra.
Qed.

Lemma stale_sqp_fun (s : R) : sqp_fun stale_state [s] = s * (2 + 3 * s).
Proof.
  unfold sqp_fun, lag_model_hess_prod, vec_mat, vscale, vadd, dot, vsum.
  simpl. lra.
Qed.

Lemma stale_merit (x : vec) (f : R) (c e : vec) :
  merit stale_state x (Some f) (Some c) (Some e) = f.
Proof.
  unfold merit. simpl.
  destruct (Rlt_dec 0 0) as [Hn|_]; [exfalso; lra|reflexivity].
Qed.

(** On [stale_state] the step -0.5 from the point 0 is predicted to lower the
    merit value by 0.25; the objective goes from 1 to 0.25, which gives the
    ratio 3. *)
Example get_reduction_ratio_three :
  get_reduction_ratio stale_state [-0.5] 0.25 [-3.75] [] = 3.
Proof.
  pose proof tiny_pos as Ht. pose proof tiny_small as Hsmall.
  unfold get_reduction_ratio. rewrite !stale_merit, stale_sqp_fun.
  change (fun_best stale_state) with 1.
  replace (1 - 0.25) with 0.75 by lra.
  replace (0 - -0.5 * (2 + 3 * -0.5)) with 0.25 by lra.
  rewrite (Rabs_nonneg_eq 0.75), (Rabs_nonneg_eq 0.25) by lra.
  destruct (Rlt_dec (tiny * 0.75) 0.25) as [_|Hn]; [lra|exfalso; lra].
Qed.

(** The zero step is predicted to change nothing: the ratio is the
    sentinel. *)
Example get_reduction_ratio_degenerate :
  get_reduction_ratio stale_state [0] 1 [-4] [] = -1.
Proof.
  pose proof tiny_pos as Ht.
  unfold get_reduction_ratio. rewrite !stale_merit, stale_sqp_fun.
  change (fun_best stale_state) with 1.
  replace (1 - 1) with 0 by lra. replace (0 - 0 * (2 + 3 * 0)) with 0 by lra.
  rewrite Rabs_R0.
  destruct (Rlt_dec (tiny * 0) 0) as [Hn|_]; [exfalso; lra|reflexivity].
Qed.

(** At the point 1 of [demo_models] the nonlinear constraint is active and
    the linear one is not: the Jacobian has the single row [[3]], the
    least-squares problem has one unknown with the lower bound 0, and its
    solution becomes the multiplier of the nonlinear constraint while the
    multiplier of the linear constraint is reset. *)
Example set_multipliers_active_run :
  let tr := @set_multipliers plus_one_solvers
              (with_multipliers (with_best_index demo_state 1) [7] [] [-3] []) in
  lm_linear_ub tr = [0] /\ lm_nonlinear_ub tr = [0 + 1]
  /\ lm_linear_eq tr = [] /\ lm_nonlinear_eq tr = [].
Proof.
  cbv zeta.
  set (st := with_multipliers (with_best_index demo_state 1) [7] [] [-3] []).
  assert (Hxl : incl_xl st = [false]).
  { unfold incl_xl, x_best, point, vadd. simpl. eval_R. reflexivity. }
  assert (Hxu : incl_xu st = [false]).
  { unfold incl_xu, x_best, point, vadd. simpl. eval_R. reflexivity. }
  assert (Hl : incl_linear st = [false]).
  { unfold incl_linear, x_best, point, vadd, mat_vec, dot, vsum. simpl.
    eval_R. reflexivity. }
  assert (Hn : incl_nonlinear st = [true]).
  { unfold incl_nonlinear, cub_best. simpl. eval_R. reflexivity. }
  assert (Hjac : c_jac st = [[2 * (0 + 1) + 1]]).
  { unfold c_jac. rewrite Hxl, Hxu, Hl, Hn. reflexivity. }
  unfold set_multipliers. rewrite Hjac, Hxl, Hxu, Hl, Hn.
  repeat split.
Qed.

(** On [stale_state] the zero step changes neither the model nor the
    violation, so the threshold is the norm of the multipliers 3 and 2; the
    penalty 0 is raised to twice that norm, the best index goes from the
    point 0 to the point -1, whose objective value is the lowest, and the
    result is [false]. *)
Example increase_penalty_run :
  let '(tr, same) := increase_penalty stale_state [0] in
  penalty tr = 2 * sqrt 13 /\ best_index tr = 2%nat /\ same = false.
Proof.
  assert (Hs13 : 0 < sqrt 13) by (apply sqrt_lt_R0; lra).
  assert (Hthr : penalty_threshold stale_state [0] = sqrt 13).
  { unfold penalty_threshold. rewrite stale_sqp_fun.
    replace (viol_diff stale_state [0]) with 0.
    - replace (0 * (2 + 3 * 0)) with 0 by lra. rewrite Rabs_R0.
      destruct (Rlt_dec (tiny * 0) 0) as [Hn|_]; [exfalso; lra|].
      unfold multipliers_norm, norm, dot, vsum. simpl. f_equal. lra.
    - unfold viol_diff, get_constraint_linearizations, x_best, point. simpl.
      unfold vpos, vneg, vsub, vadd, mat_vec, dot, vsum. simpl. eval_R.
      rewrite (norm_eval _ 0); [lra|lra|unfold dot, vsum; simpl; lra]. }
  unfold increase_penalty. rewrite Hthr. cbv zeta.
  destruct (Rle_dec (penalty stale_state) (1.5 * sqrt 13)) as [_|Hn];
    [|exfalso; simpl in Hn; lra].
  set (st := with_penalty stale_state (2 * sqrt 13)).
  assert (Hm : forall k, (k < 3)%nat ->
                         merit_at st k = nth k (fun_val slack_models) 0).
  { intros k Hk. unfold merit_at, merit, violation, violation_of, point. simpl.
    destruct (Rlt_dec 0 (2 * sqrt 13)) as [_|Hn]; [|exfalso; lra].
    unfold vpos, vabs, vsub, vadd, mat_vec, dot, vsum.
    destruct k as [|[|[|k]]]; [| | |lia]; simpl; eval_R;
      (rewrite (norm_eval _ 0); [lra|lra|unfold dot, vsum; simpl; lra]). }
  assert (Hloop : set_best_index st = with_best_index st 2).
  { unfold set_best_index, best_index_loop.
    change (seq 0 (npt (models st))) with [0; 1; 2]%nat.
    cbn [fold_left].
    rewrite (best_index_step_skip_eq _ _ _ 0%nat) by reflexivity.
    rewrite (best_index_step_keep _ _ _ _ _ 1%nat).
    - rewrite (best_index_step_take _ _ _ _ _ 2%nat); [reflexivity|discriminate|].
      rewrite !Hm by (simpl; lia). simpl. apply improves_merit. lra.
    - rewrite !Hm by (simpl; lia).
      change (resid_at st 1) with (resid_at (with_best_index stale_state 0) 1).
      change (resid_at st (best_index st))
        with (resid_at (with_best_index stale_state 0) 0).
      rewrite !slack_resid_at by lia.
      simpl. apply improves_not; lra. }
  rewrite Hloop. repeat split.
Qed.

(** * Further properties of the framework *)

(** ** The merit function *)

Lemma dot_self_zero_iff (v : vec) : dot v v = 0 <-> Forall (fun a => a = 0) v.
Proof.
  unfold dot, vsum. induction v as [|a v IH]; simpl.
  - split; [constructor|reflexivity].
  - pose proof (dot_self_nonneg v) as Hv. unfold dot, vsum in Hv.
    split.
    + intros H. assert (Ha : a * a = 0) by nra.
      constructor; [nra|]. apply IH. nra.
    + intros H. inversion H as [|? ? Ha Hrest]; subst.
      apply IH in Hrest. lra.
Qed.

Lemma norm_zero_iff (v : vec) : norm v = 0 <-> Forall (fun a => a = 0) v.
Proof.
  rewrite <- dot_self_zero_iff. unfold norm. split.
  - intros H. apply sqrt_eq_0; [apply dot_self_nonneg|exact H].
  - intros ->. apply sqrt_0.
Qed.

Lemma vpos_zero_iff (v : vec) :
  Forall (fun a => a = 0) (vpos v) <-> Forall (fun c => c <= 0) v.
Proof.
  unfold vpos. rewrite Forall_map. rewrite !Forall_forall.
  split; intros H c Hc; specialize (H c Hc); unfold Rmax in *;
    destruct (Rle_dec c 0); lra.
Qed.

Lemma vabs_zero_iff (v : vec) :
  Forall (fun a => a = 0) (vabs v) <-> Forall (fun c => c = 0) v.
Proof.
  unfold vabs. rewrite Forall_map. rewrite !Forall_forall.
  split; intros H c Hc; specialize (H c Hc).
  - destruct (Req_dec c 0) as [Hz|Hnz]; [exact Hz|].
    apply Rabs_no_R0 in Hnz. contradiction.
  - rewrite H. apply Rabs_R0.
Qed.

(** The vector that the penalty multiplies vanishes exactly at the feasible
    points. *)
Lemma violation_zero_iff (p : Problem) (x cub_v ceq_v : vec) :
  Forall (fun a => a = 0) (violation p x cub_v ceq_v) <-> feasible p x cub_v ceq_v.
Proof.
  unfold violation, violation_of, feasible.
  rewrite !Forall_app, vpos_zero_iff, !vabs_zero_iff, !Forall_app. tauto.
Qed.

(** The merit value of a state reads the problem and the penalty only. *)
Lemma merit_ext (tr1 tr2 : TrustRegion) (x : vec) (fo : option R) (co eo : option vec) :
  pb tr1 = pb tr2 -> penalty tr1 = penalty tr2 ->
  merit tr1 x fo co eo = merit tr2 x fo co eo.
Proof. intros Hp Hmu. unfold merit. now rewrite Hp, Hmu. Qed.

(** X1. The merit value is never below the objective value it is given, and
    it is that value when the penalty is not positive. *)
Theorem merit_lower_bound (tr : TrustRegion) (x : vec) (f : R) (c e : vec) :
  f <= merit tr x (Some f) (Some c) (Some e)
  /\ (penalty tr <= 0 -> merit tr x (Some f) (Some c) (Some e) = f).
Proof.
  unfold merit.
  pose proof (norm_nonneg (violation (pb tr) x c e)) as Hn.
  destruct (Rlt_dec 0 (penalty tr)) as [Hpos|Hneg]; split; intros; try lra; nra.
Qed.

(** X2. With a positive penalty, the merit value is the objective value
    exactly when the point is feasible. *)
Theorem merit_feasible_iff (tr : TrustRegion) (x : vec) (f : R) (c e : vec) :
  0 < penalty tr ->
  merit tr x (Some f) (Some c) (Some e) = f <-> feasible (pb tr) x c e.
Proof.
  intros Hpos. rewrite <- violation_zero_iff, <- norm_zero_iff.
  unfold merit. destruct (Rlt_dec 0 (penalty tr)) as [_|Hn]; [|contradiction].
  split; intros H; nra.
Qed.

Lemma merit_with_penalty_le (tr : TrustRegion) (mu1 mu2 : R) (x : vec)
    (fo : option R) (co eo : option vec) :
  mu1 <= mu2 ->
  merit (with_penalty tr mu1) x fo co eo <= merit (with_penalty tr mu2) x fo co eo.
Proof.
  intros Hle. unfold merit. cbn [penalty pb with_penalty].
  set (f := match fo with Some f => f | None => pb_fun (pb tr) x end).
  set (v := violation (pb tr) x _ _).
  pose proof (norm_nonneg v) as Hn.
  destruct (Rlt_dec 0 mu1), (Rlt_dec 0 mu2); try lra; nra.
Qed.

(** X3. Of two states on the same problem, the one with the larger penalty
    gives every point a merit value that is at least as large. *)
Theorem merit_penalty_monotone (tr1 tr2 : TrustRegion) (x : vec)
    (fo : option R) (co eo : option vec) :
  pb tr1 = pb tr2 -> penalty tr1 <= penalty tr2 ->
  merit tr1 x fo co eo <= merit tr2 x fo co eo.
Proof.
  intros Hp Hle.
  rewrite (merit_ext tr1 (with_penalty tr1 (penalty tr1)) x fo co eo eq_refl eq_refl).
  rewrite (merit_ext tr2 (with_penalty tr1 (penalty tr2)) x fo co eo
                     (eq_sym Hp) eq_refl).
  now apply merit_with_penalty_le.
Qed.

Lemma increase_penalty_frame (tr : TrustRegion) (step : vec) :
  pb (fst (increase_penalty tr step)) = pb tr
  /\ models (fst (increase_penalty tr step)) = models tr
  /\ penalty tr <= penalty (fst (increase_penalty tr step))
  /\ (0 <= penalty tr -> 0 <= penalty (fst (increase_penalty tr step))).
Proof.
  pose proof (penalty_threshold_nonneg tr step) as Hthr.
  unfold increase_penalty. cbv zeta.
  destruct (Rle_dec (penalty tr) (1.5 * penalty_threshold tr step)) as [Hle|Hgt];
    cbn [fst]; repeat split; try lra.
  - rewrite set_best_index_penalty. simpl. lra.
  - intros _. rewrite set_best_index_penalty. simpl. lra.
Qed.

(** X4. [increase_penalty] does not lower the merit value of any point. *)
Theorem increase_penalty_merit (tr : TrustRegion) (step x : vec)
    (fo : option R) (co eo : option vec) :
  merit tr x fo co eo <= merit (fst (increase_penalty tr step)) x fo co eo.
Proof.
  destruct (increase_penalty_frame tr step) as (Hp & _ & Hle & _).
  rewrite (merit_ext tr (with_penalty tr (penalty tr)) x fo co eo eq_refl eq_refl).
  rewrite (merit_ext (fst (increase_penalty tr step))
                     (with_penalty tr (penalty (fst (increase_penalty tr step))))
                     x fo co eo Hp eq_refl).
  now apply merit_with_penalty_le.
Qed.

(** ** The reduction ratio *)

(** X5. The reduction ratio is positive exactly when the merit value at the
    trial point is below the one at the best point and the change that the
    model predicts is not negligible against it. *)
Theorem get_reduction_ratio_positive (tr : TrustRegion) (step : vec)
    (fun_v : R) (cub_v ceq_v : vec) :
  let actual :=
    merit tr (x_best tr) (Some (fun_best tr)) (Some (cub_best tr)) (Some (ceq_best tr))
    - merit tr (vadd (x_best tr) step) (Some fun_v) (Some cub_v) (Some ceq_v) in
  let model :=
    merit tr (x_best tr) (Some 0) (Some (cub (models tr) (x_best tr)))
          (Some (ceq (models tr) (x_best tr)))
    - merit tr (vadd (x_best tr) step) (Some (sqp_fun tr step))
            (Some (sqp_cub tr step)) (Some (sqp_ceq tr step)) in
  0 < get_reduction_ratio tr step fun_v cub_v ceq_v
  <-> 0 < actual /\ tiny * Rabs actual < Rabs model.
Proof.
  intros actual model. unfold get_reduction_ratio. fold actual. fold model.
  pose proof tiny_pos as Ht. pose proof (Rabs_pos actual) as Ha.
  destruct (Rlt_dec (tiny * Rabs actual) (Rabs model)) as [Hlt|Hge].
  - assert (Hm : 0 < Rabs model) by nra.
    assert (Hi : 0 < / Rabs model) by (apply Rinv_0_lt_compat; exact Hm).
    unfold Rdiv. split.
    + intros Hr. split; [|exact Hlt].
      destruct (Rle_dec actual 0) as [Hneg|Hp]; [|lra].
      exfalso. nra.
    + intros [Hp _]. nra.
  - split; [lra|]. intros [_ Hc]. contradiction.
Qed.

(** ** The zero step *)

Lemma dot_zeros_r (u v : vec) : dot u (zeros_like v) = 0.
Proof.
  unfold dot, vsum, zeros_like. revert v.
  induction u as [|a u IH]; intros [|b v]; simpl; try reflexivity.
  rewrite IH. lra.
Qed.

Lemma dot_zeros_l (u v : vec) : dot (zeros_like u) v = 0.
Proof.
  unfold dot, vsum, zeros_like. revert v.
  induction u as [|a u IH]; intros [|b v]; simpl; try reflexivity.
  rewrite IH. lra.
Qed.

Lemma vadd_zeros_r (v w : vec) :
  (length v <= length w)%nat -> vadd v (zeros_like w) = v.
Proof.
  unfold vadd, zeros_like. revert w.
  induction v as [|a v IH]; intros [|b w] Hlen; simpl in *; try reflexivity; try lia.
  rewrite IH by lia. f_equal. lra.
Qed.

Lemma mat_vec_zeros (a : mat) (x : vec) :
  mat_vec a (zeros_like x) = map (fun _ => 0) a.
Proof.
  unfold mat_vec. apply map_ext. intros row. apply dot_zeros_r.
Qed.

Lemma vadd_zero_rows (v : vec) (a : mat) :
  (length v <= length a)%nat -> vadd v (map (fun _ => 0) a) = v.
Proof.
  unfold vadd. revert a.
  induction v as [|c v IH]; intros [|r a] Hlen; simpl in *; try reflexivity; try lia.
  rewrite IH by lia. f_equal. lra.
Qed.

(** X6. When each model of a nonlinear constraint has its gradient, the zero
    step gets the sentinel [-1]: the model predicts no change for it. *)
Theorem get_reduction_ratio_zero_step (tr : TrustRegion) (fun_v : R) (cub_v ceq_v : vec) :
  (length (cub (models tr) (x_best tr))
   <= length (cub_grad (models tr) (x_best tr)))%nat ->
  (length (ceq (models tr) (x_best tr))
   <= length (ceq_grad (models tr) (x_best tr)))%nat ->
  get_reduction_ratio tr (zeros_like (x_best tr)) fun_v cub_v ceq_v = -1.
Proof.
  intros Hc He. unfold get_reduction_ratio.
  assert (Hx : vadd (x_best tr) (zeros_like (x_best tr)) = x_best tr)
    by (apply vadd_zeros_r; lia).
  assert (Hf : sqp_fun tr (zeros_like (x_best tr)) = 0)
    by (unfold sqp_fun; apply dot_zeros_l).
  assert (Hcub : sqp_cub tr (zeros_like (x_best tr)) = cub (models tr) (x_best tr))
    by (unfold sqp_cub; rewrite mat_vec_zeros; now apply vadd_zero_rows).
  assert (Hceq : sqp_ceq tr (zeros_like (x_best tr)) = ceq (models tr) (x_best tr))
    by (unfold sqp_ceq; rewrite mat_vec_zeros; now apply vadd_zero_rows).
  rewrite Hx, Hf, Hcub, Hceq.
  replace (merit tr (x_best tr) (Some 0) (Some (cub (models tr) (x_best tr)))
                 (Some (ceq (models tr) (x_best tr)))
           - merit tr (x_best tr) (Some 0) (Some (cub (models tr) (x_best tr)))
                   (Some (ceq (models tr) (x_best tr)))) with 0 by lra.
  rewrite Rabs_R0.
  pose proof tiny_pos as Ht.
  match goal with |- context [Rlt_dec ?a 0] =>
    destruct (Rlt_dec a 0) as [Hlt|_]; [|reflexivity]
  end.
  exfalso.
  match type of Hlt with tiny * Rabs ?d < 0 => pose proof (Rabs_pos d) end.
  nra.
Qed.

(** ** The low penalty *)

Lemma list_min_le (a : R) (l : list R) : list_min a l <= a.
Proof.
  revert a. induction l as [|b l IH]; intros a; simpl; [lra|].
  pose proof (IH (Rmin a b)). pose proof (Rmin_l a b). lra.
Qed.

Lemma list_max_ge (a : R) (l : list R) : a <= list_max a l.
Proof.
  revert a. induction l as [|b l IH]; intros a; simpl; [lra|].
  pose proof (IH (Rmax a b)). pose proof (Rmax_l a b). lra.
Qed.

Lemma low_penalty_nonneg (tr : TrustRegion) :
  match get_low_penalty tr with
  | Finite low => 0 <= low
  | PosInf => True
  end.
Proof.
  unfold get_low_penalty. cbv zeta.
  destruct (existsb _ _); [|simpl; lra].
  set (fv := fun_val (models tr)).
  pose proof (list_min_le (hd 0 fv) (tl fv)) as Hmin.
  pose proof (list_max_ge (hd 0 fv) (tl fv)) as Hmax.
  pose proof tiny_pos as Ht.
  match goal with |- context [Rlt_dec ?a ?c] =>
    destruct (Rlt_dec a c) as [Hlt|_]; [|exact I];
    assert (Hc : 0 < c) by nra
  end.
  apply Rmult_le_pos; [lra|].
  left. apply Rinv_0_lt_compat. exact Hc.
Qed.

Lemma decrease_penalty_penalty (tr : TrustRegion) :
  penalty (decrease_penalty tr) <= penalty tr
  /\ (0 <= penalty tr -> 0 <= penalty (decrease_penalty tr)).
Proof.
  pose proof (low_penalty_nonneg tr) as Hlow.
  unfold decrease_penalty.
  destruct (get_low_penalty tr) as [low|]; simpl; [|split; [lra|tauto]].
  rewrite py_min_Rmin. split; [apply Rmin_l|].
  intros Hpos. apply Rmin_glb; assumption.
Qed.

(** X7. The penalty that [_get_low_penalty] proposes is never negative;
    [decrease_penalty] does not raise the penalty, keeps it nonnegative when
    it was, and does not raise the merit value of any point. *)
Theorem decrease_penalty_spec (tr : TrustRegion) :
  match get_low_penalty tr with Finite low => 0 <= low | PosInf => True end
  /\ penalty (decrease_penalty tr) <= penalty tr
  /\ (0 <= penalty tr -> 0 <= penalty (decrease_penalty tr))
  /\ (forall x fo co eo,
         merit (decrease_penalty tr) x fo co eo <= merit tr x fo co eo).
Proof.
  destruct (decrease_penalty_penalty tr) as [Hle Hpos].
  assert (Hpb : pb (decrease_penalty tr) = pb tr)
    by (unfold decrease_penalty; destruct (get_low_penalty tr); reflexivity).
  split; [apply low_penalty_nonneg|]. split; [exact Hle|]. split; [exact Hpos|].
  intros x fo co eo.
  rewrite (merit_ext tr (with_penalty tr (penalty tr)) x fo co eo eq_refl eq_refl).
  rewrite (merit_ext (decrease_penalty tr)
                     (with_penalty tr (penalty (decrease_penalty tr)))
                     x fo co eo Hpb eq_refl).
  now apply merit_with_penalty_le.
Qed.

(** ** Problems without linear and nonlinear constraints *)

Lemma fold_map2_nil {A : Type} (f : A -> A -> A) (rows : list (list A)) :
  fold_left (map2 f) rows [] = [].
Proof. induction rows as [|r rows IH]; simpl; [reflexivity|exact IH]. Qed.

Lemma norm_nil : norm [] = 0.
Proof. unfold norm, dot, vsum. simpl. apply sqrt_0. Qed.

Lemma get_low_penalty_unconstrained (tr : TrustRegion) :
  no_general_constraints (pb tr) (models tr) -> get_low_penalty tr = Finite 0.
Proof.
  intros (Ha & Hb & Hea & Heb & Hcv & Hev & _).
  unfold get_low_penalty. cbv zeta.
  assert (Hrow : forall k, r_val_row tr k = []).
  { intros k. unfold r_val_row. rewrite Ha, Hb, Hea, Heb, Hcv, Hev. reflexivity. }
  assert (Hmin : col_min (map (r_val_row tr) (seq 0 (npt (models tr)))) = []).
  { destruct (seq 0 (npt (models tr))) as [|k ks]; [reflexivity|].
    simpl. rewrite Hrow. apply fold_map2_nil. }
  rewrite Hmin. reflexivity.
Qed.

Lemma penalty_threshold_unconstrained (tr : TrustRegion) (step : vec) :
  no_general_constraints (pb tr) (models tr) ->
  multipliers_norm tr = 0 ->
  penalty_threshold tr step = 0.
Proof.
  intros (Ha & Hb & Hea & Heb & _ & _ & Hc & Hcg & He & Heg) Hnorm.
  unfold penalty_threshold. rewrite Hnorm.
  assert (Hv : viol_diff tr step = 0).
  { unfold viol_diff, get_constraint_linearizations. cbv zeta.
    rewrite Ha, Hb, Hea, Heb, Hc, Hcg, He, Heg. simpl.
    change (vsub [] []) with (@nil R). rewrite norm_nil. lra. }
  rewrite Hv, Rabs_R0.
  pose proof tiny_pos as Ht. pose proof (Rabs_pos (sqp_fun tr step)) as Hs.
  destruct (Rlt_dec (tiny * Rabs (sqp_fun tr step)) 0) as [Hlt|_]; [|reflexivity].
  exfalso. nra.
Qed.

(** X8. For a problem without linear and nonlinear constraints, the
    constructor sets the penalty to zero, and [increase_penalty] leaves a
    zero penalty at zero as long as the multipliers are zero. *)
Theorem penalty_zero_unconstrained `{Subsolvers} (p : Problem) (m : Models) :
  no_general_constraints p m ->
  (forall options e_ub e_eq e_nub e_neq,
      penalty (TrustRegion_init p m options e_ub e_eq e_nub e_neq) = 0)
  /\ (forall tr step,
         pb tr = p -> models tr = m -> multipliers_norm tr = 0 -> penalty tr = 0 ->
         penalty (fst (increase_penalty tr step)) = 0).
Proof.
  intros Hno. split.
  - intros options e_ub e_eq e_nub e_neq.
    destruct (TrustRegion_init_best_index p m options e_ub e_eq e_nub e_neq)
      as (t & -> & Hp & Hm & _ & Hmu).
    rewrite get_low_penalty_unconstrained in Hmu by (rewrite Hp, Hm; exact Hno).
    destruct (set_multipliers_frame (set_best_index t)) as (_ & _ & _ & Fmu).
    cbn [penalty assign_radius set_resolution]. rewrite Fmu.
    rewrite set_best_index_penalty. exact Hmu.
  - intros tr step Hp Hm Hnorm Hmu.
    assert (Hthr : penalty_threshold tr step = 0)
      by (apply penalty_threshold_unconstrained; [rewrite Hp, Hm; exact Hno|exact Hnorm]).
    unfold increase_penalty. rewrite Hthr. cbv zeta.
    destruct (Rle_dec (penalty tr) (1.5 * 0)) as [_|Hn]; cbn [fst].
    + rewrite set_best_index_penalty. simpl. lra.
    + exact Hmu.
Qed.

(** ** More on the best index *)

(** X9. When the best index is an index of the interpolation set, it is one
    after [set_best_index] too. *)
Theorem set_best_index_in_range (tr : TrustRegion) :
  (best_index tr < npt (models tr))%nat ->
  (best_index (set_best_index tr) < npt (models tr))%nat.
Proof. intros Hb. exact (set_best_index_range tr Hb). Qed.

(** X10. When all the interpolation points have the same residual,
    [set_best_index] selects a point whose merit value is the least of the
    interpolation set. *)
Theorem set_best_index_least_merit (tr : TrustRegion) :
  (best_index tr < npt (models tr))%nat ->
  (forall j k, (j < npt (models tr))%nat -> (k < npt (models tr))%nat ->
               resid_at tr j = resid_at tr k) ->
  forall k, (k < npt (models tr))%nat ->
            merit_at tr (best_index (set_best_index tr)) <= merit_at tr k.
Proof.
  intros Hb Hres k Hk.
  assert (Hseq : forall j, In j (seq 0 (npt (models tr))) -> (j < npt (models tr))%nat)
    by (intros j Hj; apply in_seq in Hj; lia).
  assert (Hstart : consistent tr (best_index tr, merit_at tr (best_index tr),
                                  resid_at tr (best_index tr)))
    by (repeat split; assumption).
  pose proof (best_index_fold_consistent tr (best_index_tol tr) _ _ Hseq Hstart) as Hc.
  pose proof (best_index_fold_min tr (best_index_tol tr) _ _ Hres Hseq Hstart) as Hmin.
  cbv zeta in Hmin. fold (best_index_loop tr) in Hc, Hmin.
  unfold set_best_index. cbn [best_index with_best_index].
  destruct (best_index_loop tr) as [[b1 m1] r1]. simpl in Hmin. simpl.
  destruct Hc as (_ & Hm1 & _). destruct Hmin as [Hle Hall].
  rewrite <- Hm1.
  destruct (Nat.eq_dec k (best_index tr)) as [->|Hne]; [exact Hle|].
  apply Hall; [apply in_seq; lia|exact Hne].
Qed.

(** ** More on the multipliers *)

Lemma fill_masked_length (mask : list bool) (vals a : vec) :
  length (fill_masked mask vals a) = length a.
Proof.
  revert mask vals. induction a as [|a0 a IH]; intros mask vals; simpl; [reflexivity|].
  destruct mask as [|[|] mask]; [|destruct vals|]; simpl; now rewrite IH.
Qed.

Lemma fill_masked_same_length (mask : list bool) (vals a a' : vec) :
  length a = length a' -> fill_masked mask vals a = fill_masked mask vals a'.
Proof.
  revert mask vals a'.
  induction a as [|a0 a IH]; intros mask vals [|b0 a'] Hlen; simpl in *;
    try reflexivity; try discriminate.
  injection Hlen as Hlen.
  destruct mask as [|[|] mask]; [|destruct vals|]; f_equal; now apply IH.
Qed.

(** X11. [set_multipliers] is idempotent: a second call right after a first
    one changes nothing. *)
Theorem set_multipliers_idempotent `{Subsolvers} (tr : TrustRegion) :
  set_multipliers (set_multipliers tr) = set_multipliers tr.
Proof.
  unfold set_multipliers at 2 3.
  destruct (Nat.ltb 0 (mat_size (pb_n (pb tr)) (c_jac tr))) eqn:E.
  - cbv zeta.
    match goal with
    | |- set_multipliers (with_multipliers tr ?a ?b ?c ?d) = _ =>
        set (tr' := with_multipliers tr a b c d)
    end.
    unfold set_multipliers.
    change (c_jac tr') with (c_jac tr).
    change (pb tr') with (pb tr). rewrite E. cbv zeta.
    change (incl_linear tr') with (incl_linear tr).
    change (incl_nonlinear tr') with (incl_nonlinear tr).
    change (incl_xl tr') with (incl_xl tr).
    change (incl_xu tr') with (incl_xu tr).
    change (models tr') with (models tr).
    change (x_best tr') with (x_best tr).
    unfold tr' at 2 3. cbn [lm_linear_ub lm_nonlinear_ub with_multipliers].
    rewrite (fill_masked_same_length (incl_linear tr) _ _ (lm_linear_ub tr))
      by apply fill_masked_length.
    rewrite (fill_masked_same_length (incl_nonlinear tr) _ _ (lm_nonlinear_ub tr))
      by apply fill_masked_length.
    reflexivity.
  - apply set_multipliers_empty. apply Nat.ltb_ge in E. lia.
Qed.

(** ** Invariants of the state *)

Lemma set_radius_frame (tr : TrustRegion) (r : R) :
  pb (set_radius tr r) = pb tr /\ models (set_radius tr r) = models tr
  /\ penalty (set_radius tr r) = penalty tr
  /\ best_index (set_radius tr r) = best_index tr.
Proof.
  unfold set_radius. cbv zeta.
  destruct (Rle_dec _ _); repeat split.
Qed.

Lemma update_radius_frame (tr : TrustRegion) (step : vec) (ratio : R) :
  pb (update_radius tr step ratio) = pb tr
  /\ models (update_radius tr step ratio) = models tr
  /\ penalty (update_radius tr step ratio) = penalty tr
  /\ best_index (update_radius tr step ratio) = best_index tr.
Proof.
  destruct (update_radius_as_setter tr step ratio) as (new & -> & _).
  apply set_radius_frame.
Qed.

Lemma reduce_resolution_frame (tr : TrustRegion) (options : Options) :
  pb (reduce_resolution tr options) = pb tr
  /\ models (reduce_resolution tr options) = models tr
  /\ penalty (reduce_resolution tr options) = penalty tr
  /\ best_index (reduce_resolution tr options) = best_index tr.
Proof.
  unfold reduce_resolution. cbv zeta.
  destruct (Rlt_dec _ _); [|destruct (Rlt_dec _ _)]; repeat split.
Qed.

Lemma set_multipliers_radius `{Subsolvers} (tr : TrustRegion) :
  resolution (set_multipliers tr) = resolution tr
  /\ radius (set_multipliers tr) = radius tr.
Proof.
  unfold set_multipliers.
  destruct (Nat.ltb 0 (mat_size (pb_n (pb tr)) (c_jac tr))); split; reflexivity.
Qed.

Lemma increase_penalty_radius (tr : TrustRegion) (step : vec) :
  resolution (fst (increase_penalty tr step)) = resolution tr
  /\ radius (fst (increase_penalty tr step)) = radius tr
  /\ ((best_index tr < npt (models tr))%nat ->
      (best_index (fst (increase_penalty tr step)) < npt (models tr))%nat).
Proof.
  unfold increase_penalty. cbv zeta.
  destruct (Rle_dec _ _); cbn [fst].
  - split; [reflexivity|]. split; [reflexivity|]. intros Hb.
    exact (set_best_index_range (with_penalty tr (2 * penalty_threshold tr step)) Hb).
  - split; [reflexivity|]. split; [reflexivity|]. intros Hb. exact Hb.
Qed.

Lemma decrease_penalty_frame (tr : TrustRegion) :
  pb (decrease_penalty tr) = pb tr /\ models (decrease_penalty tr) = models tr
  /\ best_index (decrease_penalty tr) = best_index tr
  /\ resolution (decrease_penalty tr) = resolution tr
  /\ radius (decrease_penalty tr) = radius tr.
Proof.
  unfold decrease_penalty. destruct (get_low_penalty tr); repeat split.
Qed.

(** Each method keeps the problem, the models and the invariant. *)
Lemma run_method_invariant `{Subsolvers} (options : Options) (tr : TrustRegion)
    (m : Method) :
  0 < radius_final options ->
  state_invariant options tr ->
  state_invariant options (run_method options tr m)
  /\ pb (run_method options tr m) = pb tr
  /\ models (run_method options tr m) = models tr.
Proof.
  intros Hpos (Hrad & Hmu & Hb).
  destruct m as [step ratio| |step| | |]; cbn [run_method].
  - destruct (update_radius_frame tr step ratio) as (Fp & Fm & Fmu & Fb).
    pose proof (update_radius_invariant options tr step ratio Hpos Hrad) as Hr.
    unfold radius_invariant in Hr.
    unfold state_invariant. rewrite Fm, Fmu, Fb.
    repeat split; first [assumption | apply Hr].
  - destruct (reduce_resolution_frame tr options) as (Fp & Fm & Fmu & Fb).
    pose proof (reduce_resolution_invariant options tr Hpos Hrad) as Hr.
    unfold radius_invariant in Hr.
    unfold state_invariant. rewrite Fm, Fmu, Fb.
    repeat split; first [assumption | apply Hr].
  - destruct (increase_penalty_frame tr step) as (Fp & Fm & _ & Fmu).
    destruct (increase_penalty_radius tr step) as (Fres & Frad & Fb).
    unfold state_invariant. rewrite Fm, Fres, Frad. repeat split; tauto.
  - destruct (decrease_penalty_frame tr) as (Fp & Fm & Fb & Fres & Frad).
    destruct (decrease_penalty_penalty tr) as (_ & Fmu).
    unfold state_invariant. rewrite Fm, Fb, Fres, Frad. repeat split; tauto.
  - pose proof (set_best_index_range tr Hb) as Hb'.
    unfold state_invariant. repeat split; first [assumption | apply Hrad | exact Hb'].
  - destruct (set_multipliers_frame tr) as (Fp & Fm & Fb & Fmu).
    destruct (set_multipliers_radius tr) as (Fres & Frad).
    unfold state_invariant. rewrite Fm, Fb, Fmu, Fres, Frad. repeat split; tauto.
Qed.

Lemma TrustRegion_init_state `{Subsolvers} (p : Problem) (m : Models)
    (options : Options) (e_ub e_eq e_nub e_neq : vec) :
  (0 < npt m)%nat ->
  let tr := TrustRegion_init p m options e_ub e_eq e_nub e_neq in
  pb tr = p /\ models tr = m
  /\ resolution tr = radius_init options /\ radius tr = radius_init options
  /\ 0 <= penalty tr /\ (best_index tr < npt m)%nat.
Proof.
  intros Hnpt.
  destruct (TrustRegion_init_best_index p m options e_ub e_eq e_nub e_neq)
    as (t & -> & Hp & Hm & Hb & Hmu).
  destruct (set_multipliers_frame (set_best_index t)) as (Fp & Fm & Fb & Fmu).
  cbv zeta. cbn [pb models resolution radius penalty best_index assign_radius
                 set_resolution].
  rewrite Fp, Fm, Fb, Fmu, set_best_index_penalty.
  repeat split; try assumption.
  - rewrite Hmu. pose proof (low_penalty_nonneg t) as Hlow.
    destruct (get_low_penalty t); [exact Hlow|lra].
  - rewrite <- Hm.
    apply (set_best_index_range t). rewrite Hb, Hm. exact Hnpt.
Qed.

Lemma run_methods_invariant `{Subsolvers} (options : Options) (ms : list Method)
    (tr : TrustRegion) :
  0 < radius_final options ->
  state_invariant options tr ->
  state_invariant options (run_methods options tr ms)
  /\ pb (run_methods options tr ms) = pb tr
  /\ models (run_methods options tr ms) = models tr.
Proof.
  intros Hpos. revert tr.
  induction ms as [|m ms IH]; intros tr Hinv; cbn [run_methods fold_left].
  - split; [exact Hinv|split; reflexivity].
  - destruct (run_method_invariant options tr m Hpos Hinv) as (Hinv' & Hp & Hm).
    destruct (IH _ Hinv') as (Hinv'' & Hp' & Hm').
    fold (run_methods options (run_method options tr m) ms).
    split; [exact Hinv''|split; congruence].
Qed.

(** X12. Whatever sequence of [update_radius], [reduce_resolution],
    [increase_penalty], [decrease_penalty], [set_best_index] and
    [set_multipliers] follows the constructor, the state keeps
    [radius >= resolution >= radius_final], a nonnegative penalty, a best
    index inside the interpolation set, and the problem and the models it
    was given. *)
Theorem state_invariant_always `{Subsolvers} (p : Problem) (m : Models)
    (options : Options) (e_ub e_eq e_nub e_neq : vec) (ms : list Method) :
  (0 < npt m)%nat ->
  0 < radius_final options <= radius_init options ->
  let tr := run_methods options
              (TrustRegion_init p m options e_ub e_eq e_nub e_neq) ms in
  state_invariant options tr /\ pb tr = p /\ models tr = m.
Proof.
  intros Hnpt [Hpos Hle].
  destruct (TrustRegion_init_state p m options e_ub e_eq e_nub e_neq Hnpt)
    as (Hp & Hm & Hres & Hrad & Hmu & Hb).
  assert (Hinit : state_invariant options
                    (TrustRegion_init p m options e_ub e_eq e_nub e_neq)).
  { unfold state_invariant. rewrite Hres, Hrad, Hm.
    repeat split; first [assumption | lra]. }
  destruct (run_methods_invariant options ms _ Hpos Hinit) as (Hinv & Hp' & Hm').
  cbv zeta. split; [exact Hinv|split; congruence].
Qed.

(** ** More on the radius and the resolution *)

(** X13. From a state with [0 < resolution <= radius], [update_radius] never
    divides the radius by more than 2.8; it does not enlarge the radius when
    the ratio is at most 0.1, nor when the ratio is at most 0.7 and the step
    is no longer than the radius; and it never multiplies the radius by more
    than [sqrt 2] when the ratio exceeds 0.7. *)
Theorem update_radius_bounds (tr : TrustRegion) (step : vec) (ratio : R) :
  0 < resolution tr <= radius tr ->
  let radius' := radius (update_radius tr step ratio) in
  radius tr / 2.8 <= radius'
  /\ (ratio <= 0.1 -> radius' <= radius tr)
  /\ (ratio <= 0.7 -> norm step <= radius tr -> radius' <= radius tr)
  /\ (0.7 < ratio -> radius' <= sqrt 2 * radius tr).
Proof.
  intros [Hres Hrad]. cbv zeta.
  pose proof sqrt2_above as Hs2. pose proof (norm_nonneg step) as Hn.
  destruct (update_radius_as_setter tr step ratio) as (new & -> & Ha & Hb & Hc).
  destruct (set_radius_snap tr new) as [Hsnap Hkeep].
  assert (Hlow : radius tr / 2 <= new).
  { destruct (Rle_dec ratio 0.1) as [H1|H1]; [rewrite Ha by assumption; lra|].
    destruct (Rle_dec ratio 0.7) as [H7|H7].
    - rewrite Hb by lra. apply Rmax_l.
    - rewrite Hc by lra. apply Rmin_glb; [nra|apply Rmax_l]. }
  destruct (Rle_dec new (1.4 * resolution tr)) as [Hle|Hgt].
  - rewrite Hsnap by assumption.
    split; [lra|]. split; [intros _; lra|]. split; [intros _ _; lra|].
    intros _. nra.
  - rewrite Hkeep by lra.
    split; [lra|]. split; [|split].
    + intros H1. rewrite Ha by assumption. lra.
    + intros H7 Hstep.
      destruct (Rle_dec ratio 0.1) as [H1|H1]; [rewrite Ha by assumption; lra|].
      rewrite Hb by lra. apply Rmax_lub; lra.
    + intros H7. rewrite Hc by assumption. apply Rmin_l.
Qed.

Lemma sqrt_between (a b : R) : 0 < b -> b < a -> b < sqrt (a * b) < a.
Proof.
  intros Hb Hab. split.
  - rewrite <- (sqrt_square b) at 1 by lra. apply sqrt_lt_1_alt. nra.
  - rewrite <- (sqrt_square a) at 2 by lra. apply sqrt_lt_1_alt. nra.
Qed.

(** X14. Above the final radius, [reduce_resolution] strictly lowers the
    resolution, without going below the final radius, and strictly lowers
    the radius; at the final radius it leaves the resolution alone. *)
Theorem reduce_resolution_decreases (tr : TrustRegion) (options : Options) :
  0 < radius_final options ->
  radius_final options <= resolution tr <= radius tr ->
  let tr' := reduce_resolution tr options in
  (radius_final options < resolution tr ->
   radius_final options <= resolution tr' < resolution tr
   /\ radius tr' < radius tr)
  /\ (resolution tr = radius_final options -> resolution tr' = radius_final options).
Proof.
  intros Hpos [Hf Hr]. cbv zeta.
  rewrite reduce_resolution_radius.
  destruct (reduce_resolution_resolution tr options) as (Ha & Hb & Hc).
  split.
  - intros Hgt.
    assert (Hres : radius_final options <= resolution (reduce_resolution tr options)
                   < resolution tr).
    { destruct (Rlt_dec (250 * radius_final options) (resolution tr)) as [H1|H1];
        [|destruct (Rlt_dec (16 * radius_final options) (resolution tr)) as [H2|H2]].
      - rewrite Ha by assumption. lra.
      - rewrite Hb by lra.
        pose proof (sqrt_between (resolution tr) (radius_final options) Hpos Hgt). lra.
      - rewrite Hc by lra. lra. }
    split; [exact Hres|].
    apply Rmax_lub_lt; lra.
  - intros Heq. apply Hc; lra.
Qed.

Lemma run_calls_app (options : Options) (tr : TrustRegion) (cs1 cs2 : list Call) :
  run_calls options tr (cs1 ++ cs2)
  = run_calls options (run_calls options tr cs1) cs2.
Proof. unfold run_calls. apply fold_left_app. Qed.

Lemma reduce_resolution_fixed (options : Options) (n : nat) (tr : TrustRegion) :
  0 < radius_final options ->
  resolution tr = radius_final options ->
  resolution (run_calls options tr (repeat ReduceResolution n)) = radius_final options.
Proof.
  intros Hpos. revert tr.
  induction n as [|n IH]; intros tr Heq; cbn [run_calls repeat fold_left run_call];
    [exact Heq|].
  fold (run_calls options (reduce_resolution tr options) (repeat ReduceResolution n)).
  apply IH.
  destruct (reduce_resolution_resolution tr options) as (_ & _ & Hc).
  apply Hc; lra.
Qed.

Lemma reduce_resolution_small (options : Options) (tr : TrustRegion) :
  0 < radius_final options ->
  resolution tr <= 250 * radius_final options ->
  resolution (run_calls options tr (repeat ReduceResolution 2)) = radius_final options.
Proof.
  intros Hpos Hle. cbn [run_calls repeat fold_left run_call].
  destruct (reduce_resolution_resolution tr options) as (_ & Hb & Hc).
  destruct (reduce_resolution_resolution (reduce_resolution tr options) options)
    as (_ & _ & Hc').
  destruct (Rlt_dec (16 * radius_final options) (resolution tr)) as [H2|H2].
  - apply Hc'; rewrite Hb by lra.
    + replace (250 * radius_final options)
        with (sqrt ((250 * radius_final options) * (250 * radius_final options)))
        by (apply sqrt_square; lra).
      apply sqrt_le_1_alt. nra.
    + replace (16 * radius_final options)
        with (sqrt ((16 * radius_final options) * (16 * radius_final options)))
        by (apply sqrt_square; lra).
      apply sqrt_le_1_alt. nra.
  - apply Hc'; rewrite Hc by lra; lra.
Qed.

Lemma reduce_resolution_reaches (options : Options) (n : nat) (tr : TrustRegion) :
  0 < radius_final options ->
  resolution tr <= 250 * radius_final options * 10 ^ n ->
  resolution (run_calls options tr (repeat ReduceResolution (n + 2)))
  = radius_final options.
Proof.
  intros Hpos. revert tr.
  induction n as [|n IH]; intros tr Hle.
  - apply reduce_resolution_small; [assumption|]. simpl in Hle. lra.
  - destruct (Rlt_dec (250 * radius_final options) (resolution tr)) as [H1|H1].
    + change (repeat ReduceResolution (S n + 2))
        with (ReduceResolution :: repeat ReduceResolution (n + 2)).
      cbn [run_calls fold_left run_call].
      fold (run_calls options (reduce_resolution tr options)
                      (repeat ReduceResolution (n + 2))).
      apply IH.
      destruct (reduce_resolution_resolution tr options) as (Ha & _).
      rewrite Ha by assumption. simpl in Hle. lra.
    + replace (S n + 2)%nat with (2 + S n)%nat by lia.
      rewrite repeat_app, run_calls_app.
      apply reduce_resolution_fixed; [assumption|].
      apply reduce_resolution_small; [assumption|lra].
Qed.

(** X15. Whatever the resolution, some number of calls to
    [reduce_resolution] brings it to the final radius, and it stays there
    under further calls. *)
Theorem reduce_resolution_terminates (options : Options) (tr : TrustRegion) :
  0 < radius_final options ->
  exists n, forall k, (n <= k)%nat ->
    resolution (run_calls options tr (repeat ReduceResolution k))
    = radius_final options.
Proof.
  intros Hpos.
  assert (Hten : Rabs 10 > 1) by (rewrite Rabs_right; lra).
  destruct (Pow_x_infinity 10 Hten (resolution tr / (250 * radius_final options)))
    as [N HN].
  exists (N + 2)%nat. intros k Hk.
  replace k with ((N + 2) + (k - (N + 2)))%nat by lia.
  rewrite repeat_app, run_calls_app.
  apply reduce_resolution_fixed; [assumption|].
  apply reduce_resolution_reaches; [assumption|].
  specialize (HN N (Nat.le_refl N)).
  rewrite Rabs_right in HN by (apply Rle_ge, pow_le; lra).
  apply Rge_le in HN.
  apply (Rmult_le_compat_l (250 * radius_final options)) in HN; [|lra].
  replace (250 * radius_final options * (resolution tr / (250 * radius_final options)))
    with (resolution tr) in HN by (field; lra).
  exact HN.
Qed.

(** X16. Along any sequence of the methods, started in a state that
    satisfies the invariant, the resolution never increases. *)
Theorem resolution_never_increases `{Subsolvers} (options : Options)
    (ms : list Method) (tr : TrustRegion) :
  0 < radius_final options ->
  state_invariant options tr ->
  resolution (run_methods options tr ms) <= resolution tr.
Proof.
  intros Hpos. revert tr.
  induction ms as [|m ms IH]; intros tr Hinv; cbn [run_methods fold_left]; [lra|].
  fold (run_methods options (run_method options tr m) ms).
  destruct (run_method_invariant options tr m Hpos Hinv) as (Hinv' & _).
  specialize (IH _ Hinv').
  assert (Hstep : resolution (run_method options tr m) <= resolution tr).
  { destruct Hinv as ((Hf & Hr) & _).
    destruct m as [step ratio| |step| | |]; cbn [run_method].
    - destruct (update_radius_as_setter tr step ratio) as (new & -> & _).
      rewrite set_radius_resolution. lra.
    - destruct (reduce_resolution_resolution tr options) as (Ha & Hb & Hc).
      destruct (Rlt_dec (250 * radius_final options) (resolution tr)) as [H1|H1];
        [|destruct (Rlt_dec (16 * radius_final options) (resolution tr)) as [H2|H2]].
      + rewrite Ha by assumption. lra.
      + rewrite Hb by lra.
        assert (Hgt : radius_final options < resolution tr) by lra.
        pose proof (sqrt_between (resolution tr) (radius_final options) Hpos Hgt). lra.
      + rewrite Hc by lra. lra.
    - destruct (increase_penalty_radius tr step) as (-> & _). lra.
    - destruct (decrease_penalty_frame tr) as (_ & _ & _ & -> & _). lra.
    - simpl. lra.
    - destruct (set_multipliers_radius tr) as (-> & _). lra. }
  lra.
Qed.

(** ** More on the steps *)

Lemma dot_vadd_le (u v : vec) :
  dot (vadd u v) (vadd u v) <= 2 * dot u u + 2 * dot v v.
Proof.
  unfold dot, vsum, vadd. revert v.
  induction u as [|a u IH]; intros v.
  - simpl. pose proof (dot_self_nonneg v) as Hv. unfold dot, vsum in Hv. lra.
  - destruct v as [|b v].
    + simpl. pose proof (dot_self_nonneg u) as Hu. unfold dot, vsum in Hu.
      pose proof (Rle_0_sqr a) as Ha. unfold Rsqr in Ha. lra.
    + simpl. specialize (IH v).
      pose proof (Rle_0_sqr (a - b)) as Hab. unfold Rsqr in Hab. nra.
Qed.

(** The two steps that [get_trust_region_step] returns. *)
Lemma get_trust_region_step_value `{Subsolvers} (tr : TrustRegion) (options : Options) :
  exists n t r,
    fst (get_trust_region_step tr options) = (n, t)
    /\ r = sqrt (radius tr ^ 2 - dot n n)
    /\ (0 <= 0.8 * radius tr -> normal_contract -> norm n <= 0.8 * radius tr)
    /\ (0 <= r -> tangential_contract -> norm t <= r).
Proof.
  unfold get_trust_region_step, get_constraint_linearizations. cbv zeta.
  rewrite !fst_bind. cbn [fst snd].
  match goal with
  | |- context [sqrt (radius tr ^ 2 - dot ?s ?s)] => set (n := s)
  end.
  destruct (type_in (pb_type (pb tr)) ["unconstrained"; "bound-constrained"]%string);
    cbn [fst snd].
  - eexists n, _, _. split; [reflexivity|]. split; [reflexivity|]. split.
    + intros Hr Hc. apply Hc, Hr.
    + intros Hr [Hc _]. apply Hc, Hr.
  - eexists n, _, _. split; [reflexivity|]. split; [reflexivity|]. split.
    + intros Hr Hc. apply Hc, Hr.
    + intros Hr [_ Hc]. apply Hc, Hr.
Qed.

(** X17. When the solvers keep their steps in the trust regions they are
    given, the normal step of [get_trust_region_step] has norm at most
    [0.8 * radius], and the trial step, the sum of the two steps, has norm at
    most [sqrt 2 * radius]. *)
Theorem get_trust_region_step_bounds `{Subsolvers} (tr : TrustRegion)
    (options : Options) :
  normal_contract -> tangential_contract -> 0 <= radius tr ->
  let '(n, t) := fst (get_trust_region_step tr options) in
  norm n <= 0.8 * radius tr
  /\ norm (vadd n t) <= sqrt 2 * radius tr.
Proof.
  intros Hnc Htc Hrad.
  destruct (get_trust_region_step_value tr options) as (n & t & r & -> & Hr & Hn & Ht).
  assert (Hn' : norm n <= 0.8 * radius tr) by (apply Hn; [lra|exact Hnc]).
  pose proof (norm_nonneg n) as Hn0.
  assert (Hsq : 0 <= radius tr ^ 2 - dot n n).
  { rewrite <- norm_sqr. simpl. nra. }
  assert (Hr0 : 0 <= r) by (rewrite Hr; apply sqrt_pos).
  assert (Ht' : norm t <= r) by (apply Ht; assumption).
  pose proof (norm_nonneg t) as Ht0.
  split; [exact Hn'|].
  assert (Hrr : r * r = radius tr ^ 2 - dot n n)
    by (rewrite Hr; apply sqrt_sqrt; exact Hsq).
  assert (Htt : dot t t <= r * r).
  { rewrite <- norm_sqr. simpl. nra. }
  pose proof (dot_vadd_le n t) as Hsum.
  assert (Hle : dot (vadd n t) (vadd n t) <= (sqrt 2 * radius tr) * (sqrt 2 * radius tr)).
  { pose proof (sqrt_sqrt 2) as H2. simpl in Hrr. nra. }
  unfold norm at 1.
  rewrite <- (sqrt_square (sqrt 2 * radius tr))
    by (apply Rmult_le_pos; [apply sqrt_pos|exact Hrad]).
  apply sqrt_le_1_alt. exact Hle.
Qed.


(** ** The index to remove *)

Lemma argmax_from_spec (l pre : list R) (best : nat) (bv : R) :
  (best < length pre)%nat ->
  nth best pre 0 = bv ->
  (forall j, (j < length pre)%nat -> nth j pre 0 <= bv) ->
  (forall j, (j < best)%nat -> nth j pre 0 < bv) ->
  let k := argmax_from best (length pre) bv l in
  (k < length (pre ++ l))%nat
  /\ (forall j, (j < length (pre ++ l))%nat -> nth j (pre ++ l) 0 <= nth k (pre ++ l) 0)
  /\ (forall j, (j < k)%nat -> nth j (pre ++ l) 0 < nth k (pre ++ l) 0).
Proof.
  revert pre best bv.
  induction l as [|a l IH]; intros pre best bv Hb Hv Hmax Hfirst; cbn [argmax_from].
  - rewrite app_nil_r. cbv zeta. rewrite Hv. repeat split; assumption.
  - replace (pre ++ a :: l) with ((pre ++ [a]) ++ l) by (rewrite <- app_assoc; reflexivity).
    replace (S (length pre)) with (length (pre ++ [a]))
      by (rewrite length_app; simpl; lia).
    destruct (Rlt_dec bv a) as [Hlt|Hge].
    + apply IH.
      * rewrite length_app. simpl. lia.
      * rewrite app_nth2 by lia. now rewrite Nat.sub_diag.
      * intros j Hj. rewrite length_app in Hj. simpl in Hj.
        destruct (Nat.eq_dec j (length pre)) as [->|Hne].
        -- rewrite app_nth2 by lia. rewrite Nat.sub_diag. simpl. lra.
        -- rewrite app_nth1 by lia. specialize (Hmax j ltac:(lia)). lra.
      * intros j Hj. rewrite app_nth1 by lia. specialize (Hmax j Hj). lra.
    + apply IH.
      * rewrite length_app. simpl. lia.
      * rewrite app_nth1 by lia. exact Hv.
      * intros j Hj. rewrite length_app in Hj. simpl in Hj.
        destruct (Nat.eq_dec j (length pre)) as [->|Hne].
        -- rewrite app_nth2 by lia. rewrite Nat.sub_diag. simpl. lra.
        -- rewrite app_nth1 by lia. apply Hmax. lia.
      * intros j Hj. rewrite app_nth1 by lia. now apply Hfirst.
Qed.

(** [argmax] gives the first index of the largest entry. *)
Lemma argmax_spec (l : list R) :
  l <> [] ->
  (argmax l < length l)%nat
  /\ (forall j, (j < length l)%nat -> nth j l 0 <= nth (argmax l) l 0)
  /\ (forall j, (j < argmax l)%nat -> nth j l 0 < nth (argmax l) l 0).
Proof.
  destruct l as [|a l]; [congruence|]. intros _.
  apply (argmax_from_spec l [a] 0 a).
  - simpl. lia.
  - reflexivity.
  - intros j Hj. simpl in Hj. replace j with 0%nat by lia. simpl. lra.
  - intros j Hj. lia.
Qed.

Lemma argmax_lt (l : list R) (n : nat) :
  (length l <= n)%nat -> (0 < n)%nat -> (argmax l < n)%nat.
Proof.
  intros Hl Hn. destruct l as [|a l]; [exact Hn|].
  assert (Hne : a :: l <> []) by discriminate.
  destruct (argmax_spec (a :: l) Hne) as (Hlt & _). lia.
Qed.

Lemma dist_sq_length (tr : TrustRegion) : length (dist_sq tr) = npt (models tr).
Proof. unfold dist_sq, npt. apply length_map. Qed.






(** X19. [get_index_to_remove] returns an index of the interpolation set,
    with or without a new point. *)
Theorem get_index_to_remove_range `{ModelOracles} (tr : TrustRegion)
    (x_new : option vec) :
  (0 < npt (models tr))%nat ->
  (fst (get_index_to_remove tr x_new) < npt (models tr))%nat.
Proof.
  intros Hn. unfold get_index_to_remove. cbn [fst].
  apply argmax_lt; [|exact Hn].
  rewrite <- dist_sq_length. unfold removal_scores.
  destruct x_new as [x|].
  - cbv zeta.
    generalize (vabs (denominators (models tr) x)).
    generalize (dist_sq tr). intros d.
    induction d as [|a d IH]; intros s; cbn [map map2 length]; [lia|].
    destruct s as [|b s]; cbn [map2 length]; [lia|].
    apply le_n_S, IH.
  - rewrite length_map. lia.
Qed.


Lemma removal_scores_nth `{ModelOracles} (tr : TrustRegion) (x : vec) (k : nat) :
  length (denominators (models tr) x) = npt (models tr) ->
  (k < npt (models tr))%nat ->
  exists w, 1 <= w
    /\ nth k (removal_scores tr (Some x)) 0
       = w * Rabs (nth k (denominators (models tr) x) 0).
Proof.
  intros Hlen Hk. unfold removal_scores. cbv zeta.
  rewrite <- dist_sq_length in Hlen, Hk.
  revert Hlen Hk. unfold vabs.
  generalize (denominators (models tr) x).
  generalize (py_max (0.1 * radius tr) (resolution tr)). intros c.
  generalize (dist_sq tr). intros d. revert k.
  induction d as [|a d IH]; intros k s Hlen Hk; [simpl in Hk; lia|].
  destruct s as [|b s]; [discriminate Hlen|].
  destruct k as [|k].
  - simpl. eexists. split; [|reflexivity].
    pose proof (Rmax_l 1 (a / (c * (c * 1)))) as Hm.
    set (w := Rmax 1 (a / (c * (c * 1)))) in *. nra.
  - simpl in *. apply IH; lia.
Qed.

(** X21. With a new point whose denominators are given for every
    interpolation point, [get_index_to_remove] returns an index whose
    denominator is not zero whenever some denominator is not zero. *)
Theorem get_index_to_remove_denominator `{ModelOracles} (tr : TrustRegion) (x : vec) :
  length (denominators (models tr) x) = npt (models tr) ->
  (exists k, (k < npt (models tr))%nat /\ nth k (denominators (models tr) x) 0 <> 0) ->
  nth (fst (get_index_to_remove tr (Some x))) (denominators (models tr) x) 0 <> 0.
Proof.
  intros Hlen (k & Hk & Hnz).
  unfold get_index_to_remove. cbn [fst].
  set (sc := removal_scores tr (Some x)).
  assert (Hsl : length sc = npt (models tr)).
  { unfold sc, removal_scores. cbv zeta. rewrite <- dist_sq_length. unfold vabs.
    rewrite <- dist_sq_length in Hlen. revert Hlen.
    generalize (denominators (models tr) x). generalize (dist_sq tr). intros d.
    induction d as [|a d IH]; intros [|b s] Hl; simpl in *; try reflexivity;
      try discriminate.
    f_equal. apply IH. lia. }
  assert (Hne : sc <> []) by (intros Hnil; rewrite Hnil in Hsl; simpl in Hsl; lia).
  destruct (argmax_spec sc Hne) as (Hlt & Hmax & _).
  rewrite Hsl in Hlt, Hmax.
  destruct (removal_scores_nth tr x k Hlen Hk) as (w & Hw & Hsk).
  destruct (removal_scores_nth tr x (argmax sc) Hlen Hlt) as (w' & Hw' & Hsm).
  fold sc in Hsk, Hsm.
  specialize (Hmax k Hk). rewrite Hsk, Hsm in Hmax.
  intros Hz. rewrite Hz, Rabs_R0 in Hmax.
  apply Rabs_pos_lt in Hnz. nra.
Qed.

(** ** The geometry-improving step *)

Lemma map2_length {A B C : Type} (f : A -> B -> C) (u : list A) (v : list B) :
  length (map2 f u v) = Nat.min (length u) (length v).
Proof.
  revert v. induction u as [|a u IH]; intros [|b v]; simpl; try reflexivity.
  now rewrite IH.
Qed.

Lemma map2_nth {A B C : Type} (f : A -> B -> C) (u : list A) (v : list B)
    (i : nat) (da : A) (db : B) (dc : C) :
  (i < length u)%nat -> (i < length v)%nat ->
  nth i (map2 f u v) dc = f (nth i u da) (nth i v db).
Proof.
  revert v i. induction u as [|a u IH]; intros [|b v] i Hu Hv; simpl in *; try lia.
  destruct i as [|i]; [reflexivity|]. apply IH; lia.
Qed.

Lemma clip_within_bounds (xl s xu : vec) :
  (forall i, nth i xl 0 <= nth i xu 0) -> within_bounds xl (clip xl s xu) xu.
Proof.
  intros Hbox i Hi. unfold clip in *.
  rewrite !map2_length in Hi.
  rewrite (map2_nth Rmax _ _ i 0 0 0) by (rewrite ?map2_length; lia).
  rewrite (map2_nth Rmin _ _ i 0 0 0) by lia.
  specialize (Hbox i).
  split; [apply Rmax_l|].
  apply Rmax_lub; [exact Hbox|apply Rmin_r].
Qed.

(** The third candidate either leaves the step alone or replaces it by a
    clipped step. *)
Lemma projected_step_cases `{Subsolvers} `{ModelOracles} `{GeometrySolvers}
    (tr : TrustRegion) (k_new : nat) (g_lag xl xu step : vec) (sigma : R) :
  projected_step tr k_new g_lag xl xu step sigma = step
  \/ exists s, projected_step tr k_new g_lag xl xu step sigma = clip xl s xu.
Proof.
  unfold projected_step, get_constraint_linearizations. cbv zeta.
  destruct (qr_tangential_byrd_omojokun _ _ _ _ _) as [n_act q].
  destruct (_ && _); [|now left].
  destruct (Rle_dec _ _); [|now left].
  destruct (Rle_dec _ _); [|now left].
  right. eexists. reflexivity.
Qed.

(** X22. For a problem whose type is neither "linearly constrained" nor
    "nonlinearly constrained", [get_geometry_step] returns the step of
    [spider_geometry] when its denominator is at least as large in absolute
    value as the one of the step of [cauchy_geometry], and the latter step
    otherwise: the step returned has the larger denominator of the two. *)
Theorem get_geometry_step_two_candidates `{Subsolvers} `{ModelOracles}
    `{GeometrySolvers} (tr : TrustRegion) (k_new : nat) (options : Options) :
  let g_lag := lag_grad (models tr) k_new (point (models tr) k_new) in
  let xl := vsub (bounds_xl (pb tr)) (x_best tr) in
  let xu := vsub (bounds_xu (pb tr)) (x_best tr) in
  let s_cauchy :=
    cauchy_geometry 0 g_lag (lag_hess_prod (models tr) k_new) xl xu (radius tr)
                    (debug options) in
  let s_spider :=
    spider_geometry 0 g_lag (lag_hess_prod (models tr) k_new) (spider_directions tr)
                    xl xu (radius tr) (debug options) in
  let sigma := fun s => denominator (models tr) (vadd (x_best tr) s) k_new in
  let step := fst (get_geometry_step tr k_new options) in
  pb_type (pb tr) <> "linearly constrained"%string ->
  pb_type (pb tr) <> "nonlinearly constrained"%string ->
  (Rabs (sigma s_cauchy) <= Rabs (sigma s_spider) -> step = s_spider)
  /\ (Rabs (sigma s_spider) < Rabs (sigma s_cauchy) -> step = s_cauchy)
  /\ Rabs (sigma s_cauchy) <= Rabs (sigma step)
  /\ Rabs (sigma s_spider) <= Rabs (sigma step).
Proof.
  intros g_lag xl xu s_cauchy s_spider sigma step Hlin Hnon.
  assert (Hty : type_in (pb_type (pb tr))
                  ["linearly constrained"; "nonlinearly constrained"]%string = false).
  { unfold type_in. simpl.
    apply String.eqb_neq in Hlin. apply String.eqb_neq in Hnon.
    now rewrite Hlin, Hnon. }
  assert (Hstep : step = if Rle_dec (Rabs (sigma s_cauchy)) (Rabs (sigma s_spider))
                         then s_spider else s_cauchy).
  { subst step. unfold get_geometry_step. cbv zeta.
    fold g_lag. fold xl. fold xu. fold s_cauchy. fold s_spider.
    fold (sigma s_cauchy). fold (sigma s_spider).
    destruct (Rle_dec (Rabs (sigma s_cauchy)) (Rabs (sigma s_spider)));
      rewrite Hty, fst_bind; reflexivity. }
  rewrite Hstep.
  destruct (Rle_dec (Rabs (sigma s_cauchy)) (Rabs (sigma s_spider))) as [Hle|Hgt];
    repeat split; intros; try reflexivity; lra.
Qed.

(** X23. When the steps of [cauchy_geometry] and [spider_geometry] lie in
    the translated bounds, and the lower bounds do not exceed the upper
    ones, the step that [get_geometry_step] returns lies in the translated
    bounds, whatever the third candidate. *)
Theorem get_geometry_step_within_bounds `{Subsolvers} `{ModelOracles}
    `{GeometrySolvers} (tr : TrustRegion) (k_new : nat) (options : Options) :
  let g_lag := lag_grad (models tr) k_new (point (models tr) k_new) in
  let xl := vsub (bounds_xl (pb tr)) (x_best tr) in
  let xu := vsub (bounds_xu (pb tr)) (x_best tr) in
  let s_cauchy :=
    cauchy_geometry 0 g_lag (lag_hess_prod (models tr) k_new) xl xu (radius tr)
                    (debug options) in
  let s_spider :=
    spider_geometry 0 g_lag (lag_hess_prod (models tr) k_new) (spider_directions tr)
                    xl xu (radius tr) (debug options) in
  (forall i, nth i xl 0 <= nth i xu 0) ->
  within_bounds xl s_cauchy xu ->
  within_bounds xl s_spider xu ->
  within_bounds xl (fst (get_geometry_step tr k_new options)) xu.
Proof.
  intros g_lag xl xu s_cauchy s_spider Hbox Hc Hs.
  unfold get_geometry_step. cbv zeta.
  fold g_lag. fold xl. fold xu. fold s_cauchy. fold s_spider.
  set (sc := denominator (models tr) (vadd (x_best tr) s_cauchy) k_new).
  set (ss := denominator (models tr) (vadd (x_best tr) s_spider) k_new).
  assert (Hsel : forall (step : vec) (sg : R),
             within_bounds xl step xu ->
             within_bounds xl
               (if type_in (pb_type (pb tr))
                     ["linearly constrained"; "nonlinearly constrained"]%string
                then projected_step tr k_new g_lag xl xu step sg else step) xu).
  { intros step sg Hst.
    destruct (type_in _ _); [|exact Hst].
    destruct (projected_step_cases tr k_new g_lag xl xu step sg) as [->|[s ->]];
      [exact Hst|now apply clip_within_bounds]. }
  destruct (Rle_dec (Rabs sc) (Rabs ss)); rewrite fst_bind; cbn [fst ret];
    apply Hsel; assumption.
Qed.

Lemma set_nth_length {A : Type} (k : nat) (v : A) (l : list A) :
  length (set_nth k v l) = length l.
Proof.
  revert k. induction l as [|a l IH]; intros [|k]; simpl; try reflexivity.
  now rewrite IH.
Qed.

Lemma set_nth_same {A : Type} (k : nat) (v d : A) (l : list A) :
  (k < length l)%nat -> nth k (set_nth k v l) d = v.
Proof.
  revert k. induction l as [|a l IH]; intros [|k] Hk; simpl in *; try lia.
  - reflexivity.
  - apply IH. lia.
Qed.

Lemma set_nth_other {A : Type} (k j : nat) (v d : A) (l : list A) :
  j <> k -> nth j (set_nth k v l) d = nth j l d.
Proof.
  revert k j. induction l as [|a l IH]; intros [|k] [|j] Hjk; simpl; try reflexivity.
  - contradiction.
  - apply IH. congruence.
Qed.

Lemma nth_tl {A : Type} (i : nat) (d : A) (l : list A) :
  nth i (tl l) d = nth (S i) l d.
Proof. destruct l as [|a l]; [now destruct i|reflexivity]. Qed.

Lemma shifted_xpt_nth (tr : TrustRegion) (j : nat) :
  (j < npt (models tr))%nat ->
  nth j (shifted_xpt tr) []
  = vsub (nth j (xpt (models tr)) []) (nth (best_index tr) (xpt (models tr)) []).
Proof.
  intros Hj. unfold shifted_xpt.
  set (f := fun c : vec => vsub c (nth (best_index tr) (xpt (models tr)) [])).
  rewrite (nth_indep _ [] (f [])) by (rewrite length_map; exact Hj).
  now rewrite map_nth.
Qed.

(** The column of [spider_directions] at the place [p - 1], for a column
    [p >= 1] of [xpt]: the column 0 at the place of the best point, and the
    column [p] elsewhere. *)
Lemma spider_directions_nth (tr : TrustRegion) (i : nat) :
  (best_index tr < npt (models tr))%nat ->
  (S i < npt (models tr))%nat ->
  nth i (spider_directions tr) []
  = vsub (nth (if Nat.eqb (S i) (best_index tr) then 0%nat else S i) (xpt (models tr)) [])
         (nth (best_index tr) (xpt (models tr)) []).
Proof.
  intros Hb Hi. unfold spider_directions. cbv zeta.
  rewrite nth_tl.
  assert (Hlen : length (shifted_xpt tr) = npt (models tr))
    by (unfold shifted_xpt; now rewrite length_map).
  destruct (Nat.eqb_spec (S i) (best_index tr)) as [He|Hne].
  - rewrite He, set_nth_same by (rewrite set_nth_length, Hlen; exact Hb).
    apply shifted_xpt_nth. lia.
  - rewrite set_nth_other by exact Hne.
    rewrite set_nth_other by discriminate.
    now apply shifted_xpt_nth.
Qed.

(** X24. The directions that [get_geometry_step] hands to [spider_geometry]
    are the differences between the best point and each of the other
    interpolation points, once each: there are [npt - 1] of them, every
    point other than the best one gives one, and every direction comes from
    a point other than the best one. *)
Theorem spider_directions_spec (tr : TrustRegion) :
  (best_index tr < npt (models tr))%nat ->
  length (spider_directions tr) = (npt (models tr) - 1)%nat
  /\ (forall j, (j < npt (models tr))%nat -> j <> best_index tr ->
                nth ((if Nat.eqb j 0 then best_index tr else j) - 1)
                    (spider_directions tr) []
                = vsub (nth j (xpt (models tr)) [])
                       (nth (best_index tr) (xpt (models tr)) []))
  /\ (forall i, (i < npt (models tr) - 1)%nat ->
                exists j, (j < npt (models tr))%nat /\ j <> best_index tr
                          /\ nth i (spider_directions tr) []
                             = vsub (nth j (xpt (models tr)) [])
                                    (nth (best_index tr) (xpt (models tr)) [])).
Proof.
  intros Hb. split; [|split].
  - unfold spider_directions. cbv zeta.
    assert (Hlen : forall (A : Type) (l : list A), length (tl l) = (length l - 1)%nat)
      by (intros A [|a l]; simpl; lia).
    rewrite Hlen, !set_nth_length. unfold shifted_xpt. now rewrite length_map.
  - intros j Hj Hne.
    destruct (Nat.eqb_spec j 0) as [->|Hj0].
    + destruct (best_index tr) as [|b] eqn:Eb; [congruence|].
      replace (S b - 1)%nat with b by lia.
      rewrite <- Eb in *.
      rewrite spider_directions_nth by lia.
      rewrite Eb, Nat.eqb_refl. reflexivity.
    + destruct j as [|j]; [congruence|].
      replace (S j - 1)%nat with j by lia.
      rewrite spider_directions_nth by lia.
      destruct (Nat.eqb_spec (S j) (best_index tr)); [congruence|reflexivity].
  - intros i Hi.
    rewrite spider_directions_nth by lia.
    destruct (Nat.eqb_spec (S i) (best_index tr)) as [He|Hne].
    + exists 0%nat. split; [lia|]. split; [lia|reflexivity].
    + exists (S i). split; [lia|]. split; [exact Hne|reflexivity].
Qed.

(** ** The linearizations and the SQP models *)

Lemma dot_vadd_r (row x s : vec) :
  length x = length s -> dot row (vadd x s) = dot row x + dot row s.
Proof.
  unfold dot, vadd. revert x s.
  induction row as [|a row IH]; intros [|b x] [|c s] Hl; simpl in *;
    try discriminate; try lra.
  rewrite (IH x s) by congruence. lra.
Qed.

Lemma map2_app {A B C : Type} (f : A -> B -> C) (u1 u2 : list A) (v1 v2 : list B) :
  length u1 = length v1 ->
  map2 f (u1 ++ u2) (v1 ++ v2) = map2 f u1 v1 ++ map2 f u2 v2.
Proof.
  revert v1. induction u1 as [|a u1 IH]; intros [|b v1] Hl; simpl in *;
    try discriminate; [reflexivity|].
  now rewrite IH by congruence.
Qed.

(** [a @ s - (b - a @ x)] is [a @ (x + s) - b]. *)
Lemma linear_rows_shift (a : mat) (b x s : vec) :
  length x = length s ->
  vsub (mat_vec a s) (vsub b (mat_vec a x)) = vsub (mat_vec a (vadd x s)) b.
Proof.
  intros Hl. unfold vsub, mat_vec. revert b.
  induction a as [|row a IH]; intros [|c b]; simpl; try reflexivity.
  rewrite IH, dot_vadd_r by exact Hl. f_equal. lra.
Qed.

(** [g @ s - (-c)] is [c + g @ s]. *)
Lemma model_rows_shift (g : mat) (c s : vec) :
  vsub (mat_vec g s) (vneg c) = vadd c (mat_vec g s).
Proof.
  unfold vsub, vadd, vneg, mat_vec. revert c.
  induction g as [|row g IH]; intros [|a c]; simpl; try reflexivity.
  rewrite IH. f_equal. lra.
Qed.

(** X25. The linearizations taken at the best point agree with the SQP
    models: for a step [s], [aub @ s - bub] is made of the residuals
    [A (x_best + s) - b] of the linear inequality constraints followed by
    [sqp_cub(s)], and [aeq @ s - beq] of the residuals of the linear
    equality constraints followed by [sqp_ceq(s)]. *)
Theorem get_constraint_linearizations_sqp (tr : TrustRegion) (s : vec) :
  length (x_best tr) = length s ->
  length (linear_ub_a (pb tr)) = length (linear_ub_b (pb tr)) ->
  length (linear_eq_a (pb tr)) = length (linear_eq_b (pb tr)) ->
  let '(aub, bub, aeq, beq) := get_constraint_linearizations tr (x_best tr) in
  vsub (mat_vec aub s) bub
  = vsub (mat_vec (linear_ub_a (pb tr)) (vadd (x_best tr) s)) (linear_ub_b (pb tr))
    ++ sqp_cub tr s
  /\ vsub (mat_vec aeq s) beq
     = vsub (mat_vec (linear_eq_a (pb tr)) (vadd (x_best tr) s)) (linear_eq_b (pb tr))
       ++ sqp_ceq tr s.
Proof.
  intros Hl Hub Heq. unfold get_constraint_linearizations, sqp_cub, sqp_ceq.
  cbv zeta.
  assert (Hsplit : forall (a g : mat) (b c : vec),
             length a = length b ->
             vsub (mat_vec (a ++ g) s)
                  (vsub b (mat_vec a (x_best tr)) ++ vneg c)
             = vsub (mat_vec a (vadd (x_best tr) s)) b ++ vadd c (mat_vec g s)).
  { intros a g b c Hab.
    unfold mat_vec at 1. rewrite map_app. fold (mat_vec a s). fold (mat_vec g s).
    unfold vsub at 1. rewrite map2_app.
    - fold (vsub (mat_vec a s) (vsub b (mat_vec a (x_best tr)))).
      fold (vsub (mat_vec g s) (vneg c)).
      now rewrite linear_rows_shift, model_rows_shift.
    - unfold vsub, mat_vec. rewrite map2_length, !length_map. lia. }
  split; apply Hsplit; assumption.
Qed.

(** ** The properties on the examples *)

Lemma zero_solvers_tangential : @tangential_contract zero_solvers.
Proof.
  split.
  - intros g hp xl xu radius dbg Hr. simpl. rewrite norm_zeros_like. exact Hr.
  - intros g hp xl xu aub bub aeq radius dbg Hr. simpl.
    rewrite norm_zeros_like. exact Hr.
Qed.

Lemma demo_penalty_pos : 0 < penalty demo_state.
Proof. pose proof eps_pos. change (0 < 1 + eps). lra. Qed.

Lemma demo_state_invariant : state_invariant demo_options demo_state.
Proof.
  pose proof eps_pos. unfold state_invariant.
  change (0.001 <= 1 <= 1 /\ 0 <= 1 + eps /\ (0 < 3)%nat).
  repeat split; try lra; lia.
Qed.

(** The feasible point 0 of [demo_problem]. *)
Lemma merit_feasible_iff_witness :
  0 < penalty demo_state
  /\ (merit demo_state [0] (Some 0) (Some [-1]) (Some []) = 0
      <-> feasible (pb demo_state) [0] [-1] []).
Proof.
  split; [exact demo_penalty_pos|].
  exact (merit_feasible_iff demo_state [0] 0 [-1] [] demo_penalty_pos).
Defined.

(** [demo_state] with its penalty and with the penalty 3. *)
Lemma merit_penalty_monotone_witness :
  penalty demo_state <= penalty (with_penalty demo_state 3)
  /\ merit demo_state [1] None None None
     <= merit (with_penalty demo_state 3) [1] None None None.
Proof.
  assert (Hle : penalty demo_state <= penalty (with_penalty demo_state 3)).
  { pose proof eps_pos. pose proof eps_small. change (1 + eps <= 3). lra. }
  split; [exact Hle|].
  exact (merit_penalty_monotone demo_state (with_penalty demo_state 3) [1]
           None None None eq_refl Hle).
Defined.

(** The zero step from the best point of [demo_state]. *)
Lemma get_reduction_ratio_zero_step_witness :
  get_reduction_ratio demo_state (zeros_like (x_best demo_state)) 3 [1] [] = -1.
Proof.
  exact (get_reduction_ratio_zero_step demo_state 3 [1] [] (le_n 1) (le_n 0)).
Defined.

Lemma bound_no_general_constraints : no_general_constraints bound_problem bound_models.
Proof.
  unfold no_general_constraints. simpl.
  repeat split; try reflexivity; intros [|[|[|[|k]]]]; reflexivity.
Qed.

(** The problem with bounds only. *)
Lemma penalty_zero_unconstrained_witness :
  no_general_constraints bound_problem bound_models
  /\ penalty (@TrustRegion_init zero_solvers bound_problem bound_models demo_options
                [] [] [] []) = 0.
Proof.
  split; [exact bound_no_general_constraints|].
  exact (proj1 (@penalty_zero_unconstrained zero_solvers bound_problem bound_models
                  bound_no_general_constraints)
           demo_options [] [] [] []).
Defined.

Lemma demo_best_index_range : (best_index demo_state < npt (models demo_state))%nat.
Proof. unfold npt. simpl. lia. Qed.

Lemma set_best_index_in_range_witness :
  (best_index (set_best_index demo_state) < npt (models demo_state))%nat.
Proof. exact (set_best_index_in_range demo_state demo_best_index_range). Defined.

Lemma stale_resid_equal (j k : nat) :
  (j < npt (models stale_state))%nat -> (k < npt (models stale_state))%nat ->
  resid_at stale_state j = resid_at stale_state k.
Proof.
  intros Hj Hk.
  transitivity 0; [exact (slack_resid_at 0 j Hj)|].
  symmetry. exact (slack_resid_at 0 k Hk).
Qed.

(** On [stale_state] every residual is zero. *)
Lemma set_best_index_least_merit_witness :
  merit_at stale_state (best_index (set_best_index stale_state))
  <= merit_at stale_state 1.
Proof.
  assert (Hb : (best_index stale_state < npt (models stale_state))%nat)
    by (unfold npt; simpl; lia).
  assert (H1 : (1 < npt (models stale_state))%nat) by (unfold npt; simpl; lia).
  exact (set_best_index_least_merit stale_state Hb stale_resid_equal 1%nat H1).
Defined.

Lemma demo_options_radii : 0 < radius_final demo_options <= radius_init demo_options.
Proof. simpl. lra. Qed.

Lemma demo_options_final_pos : 0 < radius_final demo_options.
Proof. simpl. lra. Qed.

(** A run of the six methods after the constructor. *)
Lemma state_invariant_always_witness :
  state_invariant demo_options
    (@run_methods zero_solvers demo_options
       (@TrustRegion_init zero_solvers slack_problem slack_models demo_options
          [7] [] [-3] [])
       [MUpdateRadius [1] 0.5; MIncreasePenalty [1]; MReduceResolution;
        MSetBestIndex; MSetMultipliers; MDecreasePenalty]).
Proof.
  assert (Hn : (0 < npt slack_models)%nat) by (unfold npt; simpl; lia).
  exact (proj1 (@state_invariant_always zero_solvers slack_problem slack_models
                  demo_options [7] [] [-3] []
                  [MUpdateRadius [1] 0.5; MIncreasePenalty [1]; MReduceResolution;
                   MSetBestIndex; MSetMultipliers; MDecreasePenalty]
                  Hn demo_options_radii)).
Defined.

Lemma demo_radii : 0 < resolution demo_state <= radius demo_state.
Proof. simpl. lra. Qed.

Lemma update_radius_bounds_witness :
  radius demo_state / 2.8 <= radius (update_radius demo_state [1] 0.5).
Proof.
  exact (proj1 (update_radius_bounds demo_state [1] 0.5 demo_radii)).
Defined.

Lemma demo_resolution_range :
  radius_final demo_options <= resolution demo_state <= radius demo_state.
Proof. simpl. lra. Qed.

Lemma reduce_resolution_decreases_witness :
  radius_final demo_options < resolution demo_state
  /\ radius_final demo_options
     <= resolution (reduce_resolution demo_state demo_options)
     < resolution demo_state
  /\ radius (reduce_resolution demo_state demo_options) < radius demo_state.
Proof.
  assert (Hlt : radius_final demo_options < resolution demo_state) by (simpl; lra).
  split; [exact Hlt|].
  exact (proj1 (reduce_resolution_decreases demo_state demo_options
                  demo_options_final_pos demo_resolution_range) Hlt).
Defined.

Lemma reduce_resolution_terminates_witness :
  exists n, forall k, (n <= k)%nat ->
    resolution (run_calls demo_options demo_state (repeat ReduceResolution k))
    = radius_final demo_options.
Proof.
  exact (reduce_resolution_terminates demo_options demo_state demo_options_final_pos).
Defined.

Lemma resolution_never_increases_witness :
  resolution (@run_methods zero_solvers demo_options demo_state
                [MReduceResolution; MUpdateRadius [1] 0.9; MSetMultipliers])
  <= resolution demo_state.
Proof.
  exact (@resolution_never_increases zero_solvers demo_options
           [MReduceResolution; MUpdateRadius [1] 0.9; MSetMultipliers] demo_state
           demo_options_final_pos demo_state_invariant).
Defined.

Lemma demo_radius_nonneg : 0 <= radius demo_state.
Proof. simpl. lra. Qed.

(** The steps of [demo_state] with the solvers that answer zero. *)
Lemma get_trust_region_step_bounds_witness :
  let '(n, t) := fst (@get_trust_region_step zero_solvers demo_state demo_options) in
  norm n <= 0.8 * radius demo_state
  /\ norm (vadd n t) <= sqrt 2 * radius demo_state.
Proof.
  exact (@get_trust_region_step_bounds zero_solvers demo_state demo_options
           zero_solvers_contract zero_solvers_tangential demo_radius_nonneg).
Defined.


Lemma demo_npt_pos : (0 < npt (models demo_state))%nat.
Proof. unfold npt. simpl. lia. Qed.

Lemma get_index_to_remove_range_witness :
  (fst (@get_index_to_remove unit_oracles demo_state (Some [0.5%R]))
   < npt (models demo_state))%nat.
Proof.
  exact (@get_index_to_remove_range unit_oracles demo_state (Some [0.5]) demo_npt_pos).
Defined.


Lemma unit_oracles_nonzero :
  exists k, (k < npt (models demo_state))%nat
            /\ nth k (@denominators unit_oracles (models demo_state) [0.5]) 0 <> 0.
Proof. exists 0%nat. split; [exact demo_npt_pos|]. simpl. lra. Qed.

Lemma get_index_to_remove_denominator_witness :
  length (@denominators unit_oracles (models demo_state) [0.5])
  = npt (models demo_state)
  /\ nth (fst (@get_index_to_remove unit_oracles demo_state (Some [0.5])))
         (@denominators unit_oracles (models demo_state) [0.5]) 0 <> 0.
Proof.
  split; [reflexivity|].
  exact (@get_index_to_remove_denominator unit_oracles demo_state [0.5] eq_refl
           unit_oracles_nonzero).
Defined.

(** The geometry step on the problem with bounds only. *)
Lemma get_geometry_step_two_candidates_witness :
  fst (@get_geometry_step zero_solvers unit_oracles zero_geometry bound_state 1
         demo_options)
  = @spider_geometry zero_geometry 0
      (@lag_grad zero_geometry (models bound_state) 1 (point (models bound_state) 1))
      (@lag_hess_prod zero_geometry (models bound_state) 1)
      (spider_directions bound_state)
      (vsub (bounds_xl (pb bound_state)) (x_best bound_state))
      (vsub (bounds_xu (pb bound_state)) (x_best bound_state))
      (radius bound_state) (debug demo_options).
Proof.
  assert (Hlin : pb_type (pb bound_state) <> "linearly constrained"%string)
    by (simpl; discriminate).
  assert (Hnon : pb_type (pb bound_state) <> "nonlinearly constrained"%string)
    by (simpl; discriminate).
  apply (proj1 (@get_geometry_step_two_candidates zero_solvers unit_oracles
                  zero_geometry bound_state 1 demo_options Hlin Hnon)).
  simpl. lra.
Defined.

Lemma demo_box (i : nat) :
  nth i (vsub (bounds_xl (pb demo_state)) (x_best demo_state)) 0
  <= nth i (vsub (bounds_xu (pb demo_state)) (x_best demo_state)) 0.
Proof. destruct i as [|[|i]]; simpl; lra. Qed.

Lemma demo_zero_within_bounds (v : vec) :
  length v = 1%nat ->
  within_bounds (vsub (bounds_xl (pb demo_state)) (x_best demo_state))
                (zeros_like v)
                (vsub (bounds_xu (pb demo_state)) (x_best demo_state)).
Proof.
  intros Hv. destruct v as [|a [|b v]]; try discriminate.
  intros [|i] Hi; simpl in *; [lra|lia].
Qed.

(** The geometry step on [demo_problem], whose type asks for the third
    candidate. *)
Lemma get_geometry_step_within_bounds_witness :
  (forall i,
      nth i (vsub (bounds_xl (pb demo_state)) (x_best demo_state)) 0
      <= nth i (vsub (bounds_xu (pb demo_state)) (x_best demo_state)) 0)
  /\ within_bounds (vsub (bounds_xl (pb demo_state)) (x_best demo_state))
       (fst (@get_geometry_step zero_solvers unit_oracles zero_geometry demo_state 1
               demo_options))
       (vsub (bounds_xu (pb demo_state)) (x_best demo_state)).
Proof.
  split; [exact demo_box|].
  exact (@get_geometry_step_within_bounds zero_solvers unit_oracles zero_geometry
           demo_state 1 demo_options demo_box
           (demo_zero_within_bounds
              (vsub (bounds_xl (pb demo_state)) (x_best demo_state)) eq_refl)
           (demo_zero_within_bounds
              (vsub (bounds_xl (pb demo_state)) (x_best demo_state)) eq_refl)).
Defined.

Lemma spider_directions_spec_witness :
  length (spider_directions bound_state) = (npt (models bound_state) - 1)%nat.
Proof.
  assert (Hb : (best_index bound_state < npt (models bound_state))%nat)
    by (unfold npt; simpl; lia).
  exact (proj1 (spider_directions_spec bound_state Hb)).
Defined.

Lemma get_constraint_linearizations_sqp_witness :
  let '(aub, bub, aeq, beq) :=
    get_constraint_linearizations demo_state (x_best demo_state) in
  vsub (mat_vec aub [2]) bub
  = vsub (mat_vec (linear_ub_a (pb demo_state)) (vadd (x_best demo_state) [2]))
         (linear_ub_b (pb demo_state))
    ++ sqp_cub demo_state [2]
  /\ vsub (mat_vec aeq [2]) beq
     = vsub (mat_vec (linear_eq_a (pb demo_state)) (vadd (x_best demo_state) [2]))
            (linear_eq_b (pb demo_state))
       ++ sqp_ceq demo_state [2].
Proof.
  exact (get_constraint_linearizations_sqp demo_state [2] eq_refl eq_refl eq_refl).
Defined.
